(** * Threlte: render gate, invalidation flags and disposal counts

    A shallow embedding of [createThrelteContext] (the internal context, the
    [shouldRender] decision, the render stage's gate callback, [invalidate],
    [advance]) and of the dependency resolution used by the frame scheduler. *)

From stdpp Require Import gmap strings list relations.

Local Open Scope Z_scope.

(** ** Data model *)

(** [renderMode: CurrentWritable<'always' | 'on-demand' | 'manual'>] *)
Inductive RenderMode := Always | OnDemand | Manual.

#[global] Instance RenderMode_eq_dec : EqDecision RenderMode.
Proof. solve_decision. Defined.

(** The data fields of [ThrelteInternalContext]. JavaScript compares the keys
    of a [Map] and the members of a [Set] by object identity, so an object is
    modelled by its reference, a [positive]. The counts of [disposableObjects]
    are JavaScript numbers holding integers, modelled as [Z]. The
    function-valued fields are the definitions further down. *)
Record ThrelteInternalContext := {
  frameInvalidated : bool;
  advance : bool;
  autoInvalidations : gset positive;
  disposableObjects : gmap positive Z;
  shouldDispose : bool
}.

(** What the closures of [createThrelteContext] share: the [current] value of
    the [renderMode] store, the internal context object, and everything else
    a task body may touch (scene, renderer, user data), kept abstract. *)
Record State (W : Type) := {
  renderMode : RenderMode;
  internalCtx : ThrelteInternalContext;
  world : W
}.
Arguments renderMode {W} _.
Arguments internalCtx {W} _.
Arguments world {W} _.

(** The object literal that [createThrelteContext] falls back to when no
    parent internal context exists. *)
Definition newInternalCtx : ThrelteInternalContext :=
  {| frameInvalidated := true;
     advance := false;
     autoInvalidations := ∅;
     disposableObjects := ∅;
     shouldDispose := false |}.

(** ** A state monad for the closures over the shared context *)

Definition M (W A : Type) : Type := State W → A * State W.

Definition ret {W A} (a : A) : M W A := λ s, (a, s).
Definition bind {W A B} (m : M W A) (k : A → M W B) : M W B :=
  λ s, let '(a, s') := m s in k a s'.
Definition gets {W A} (f : State W → A) : M W A := λ s, (f s, s).
Definition modifyCtx {W} (f : ThrelteInternalContext → ThrelteInternalContext)
  : M W unit :=
  λ s, (tt, {| renderMode := renderMode s;
               internalCtx := f (internalCtx s);
               world := world s |}).
Definition exec {W A} (m : M W A) (s : State W) : State W := (m s).2.
Definition eval {W A} (m : M W A) (s : State W) : A := (m s).1.

Declare Scope js_scope.
Delimit Scope js_scope with js.
Notation "x ← m ; k" := (bind m (λ x, k))
  (at level 20, m at level 100, k at level 200, only parsing) : js_scope.
Notation "m ;; k" := (bind m (λ _, k))
  (at level 100, k at level 200, right associativity, only parsing) : js_scope.
Local Open Scope js_scope.

(** [xs.forEach(f)] *)
Fixpoint forEach {W A} (f : A → M W unit) (xs : list A) : M W unit :=
  match xs with
  | [] => ret tt
  | x :: xs' => f x ;; forEach f xs'
  end.

(** Short-circuit [a || b] and [a && b] over effectful operands. *)
Definition orM {W} (a b : M W bool) : M W bool :=
  x ← a; if x then ret true else b.
Definition andM {W} (a b : M W bool) : M W bool :=
  x ← a; if x then b else ret false.

(** ** Field assignments on the internal context *)

Definition set_frameInvalidated (b : bool) (c : ThrelteInternalContext) :=
  {| frameInvalidated := b;
     advance := advance c;
     autoInvalidations := autoInvalidations c;
     disposableObjects := disposableObjects c;
     shouldDispose := shouldDispose c |}.

Definition set_advance (b : bool) (c : ThrelteInternalContext) :=
  {| frameInvalidated := frameInvalidated c;
     advance := b;
     autoInvalidations := autoInvalidations c;
     disposableObjects := disposableObjects c;
     shouldDispose := shouldDispose c |}.

Definition set_disposableObjects (m : gmap positive Z) (c : ThrelteInternalContext) :=
  {| frameInvalidated := frameInvalidated c;
     advance := advance c;
     autoInvalidations := autoInvalidations c;
     disposableObjects := m;
     shouldDispose := shouldDispose c |}.

Definition set_shouldDispose (b : bool) (c : ThrelteInternalContext) :=
  {| frameInvalidated := frameInvalidated c;
     advance := advance c;
     autoInvalidations := autoInvalidations c;
     disposableObjects := disposableObjects c;
     shouldDispose := b |}.

(** ** The closures of [createThrelteContext] *)

Section Closures.
Context {W : Type}.

(** [resetFrameInvalidation: () => { internalCtx.frameInvalidated = false;
    internalCtx.advance = false }] *)
Definition resetFrameInvalidation : M W unit :=
  modifyCtx (set_frameInvalidated false) ;;
  modifyCtx (set_advance false).

(** [disposableObjects.set(obj, n)] *)
Definition mapSet (obj : positive) (n : Z) : M W unit :=
  modifyCtx (λ c, set_disposableObjects (<[obj := n]> (disposableObjects c)) c).

(** [disposableObjects.delete(object)] *)
Definition mapDelete (obj : positive) : M W unit :=
  modifyCtx (λ c, set_disposableObjects (delete obj (disposableObjects c)) c).

(** [disposableObjects.get(obj)] *)
Definition mapGet (obj : positive) : M W (option Z) :=
  gets (λ s, disposableObjects (internalCtx s) !! obj).

(** The truthiness of [currentValue]: defined and not zero. *)
Definition truthy (v : option Z) : bool :=
  match v with
  | Some n => negb (n =? 0)
  | None => false
  end.

(** [addDisposableObjects]: a truthy count is incremented, anything else
    (no entry, or a count of 0) becomes 1. *)
Definition addDisposableObjects (objects : list positive) : M W unit :=
  forEach (λ obj,
    currentValue ← mapGet obj;
    if truthy currentValue
    then mapSet obj (default 0 currentValue + 1)
    else mapSet obj 1) objects.

(** [removeDisposableObjects]: returns at once on an empty array; otherwise
    decrements the counts that are truthy and [> 0], then raises
    [shouldDispose]. *)
Definition removeDisposableObjects (objects : list positive) : M W unit :=
  if bool_decide (length objects = 0%nat) then ret tt
  else
    forEach (λ obj,
      currentValue ← mapGet obj;
      if truthy currentValue && (0 <? default 0 currentValue)
      then mapSet obj (default 0 currentValue - 1)
      else ret tt) objects ;;
    modifyCtx (set_shouldDispose true).

(** [dispose(force = false)], the body that runs once [await tick()] has
    resumed. [object?.dispose?.()] is the object's own method and does not
    touch the context; [Map.prototype.forEach] visits every entry once, and
    deleting the visited entry does not disturb the iteration. *)
Definition dispose (force : bool) : M W unit :=
  sd ← gets (λ s, shouldDispose (internalCtx s));
  if negb sd && negb force then ret tt
  else
    entries ← gets (λ s, map_to_list (disposableObjects (internalCtx s)));
    forEach (λ '(object, mounted),
      if (mounted =? 0) || force then mapDelete object else ret tt) entries ;;
    modifyCtx (set_shouldDispose false).

(** [shouldRender]:
    [renderMode.current === 'always' ||
     (renderMode.current === 'on-demand' &&
       (internalCtx.frameInvalidated || internalCtx.autoInvalidations.size > 0)) ||
     (renderMode.current === 'manual' && internalCtx.advance)] *)
Definition modeIs (m : RenderMode) : M W bool :=
  gets (λ s, bool_decide (renderMode s = m)).

Definition shouldRender : M W bool :=
  orM (orM (modeIs Always)
           (andM (modeIs OnDemand)
                 (orM (gets (λ s, frameInvalidated (internalCtx s)))
                      (gets (λ s, bool_decide
                         (0 < size (autoInvalidations (internalCtx s)))%nat)))))
      (andM (modeIs Manual) (gets (λ s, advance (internalCtx s)))).

(** The gate of the render stage:
    [callback(_, runTasks) { if (shouldRender()) runTasks() }] *)
Definition renderStage_callback {D : Type} (_ : D) (runTasks : M W unit)
  : M W unit :=
  b ← shouldRender; if b then runTasks else ret tt.

End Closures.

(** [ctx.invalidate] and [ctx.advance] of the returned [ThrelteContext]. *)
Module ctx.
Definition invalidate {W} : M W unit := modifyCtx (set_frameInvalidated true).
Definition advance {W} : M W unit := modifyCtx (set_advance true).
End ctx.

(** ** Observing the gate and the calls on the context *)

(** The shared state right after [createThrelteContext] ran without a parent
    internal context. *)
Definition initialState {W} (mode : RenderMode) (w : W) : State W :=
  {| renderMode := mode; internalCtx := newInternalCtx; world := w |}.

(** A counter of invocations next to the world, to observe how often the gate
    runs the [runTasks] closure it is handed. *)
Definition withCount {W} (s : State W) (n : nat) : State (W * nat) :=
  {| renderMode := renderMode s;
     internalCtx := internalCtx s;
     world := (world s, n) |}.

Definition withoutCount {W} (s : State (W * nat)) : State W :=
  {| renderMode := renderMode s;
     internalCtx := internalCtx s;
     world := (world s).1 |}.

(** [counted runTasks] behaves as [runTasks] and counts the invocation. *)
Definition counted {W} (runTasks : M W unit) : M (W * nat) unit :=
  λ s, (tt, withCount (exec runTasks (withoutCount s)) (S (world s).2)).

Definition invocations {W} (s : State (W * nat)) : nat := (world s).2.

(** The calls that reach the disposal bookkeeping. *)
Inductive DisposalCall :=
| AddObjects (objects : list positive)
| RemoveObjects (objects : list positive)
| Dispose (force : bool).

Definition disposalCall {W} (c : DisposalCall) : M W unit :=
  match c with
  | AddObjects objects => addDisposableObjects objects
  | RemoveObjects objects => removeDisposableObjects objects
  | Dispose force => dispose force
  end.

(** The closures that share the internal context with
    [resetFrameInvalidation]; the gate is [renderStage_callback]. *)
Inductive FlagClient :=
| CallShouldRender
| CallInvalidate
| CallAdvance
| CallDisposal (c : DisposalCall).

Definition flagClient {W} (c : FlagClient) : M W unit :=
  match c with
  | CallShouldRender => shouldRender ;; ret tt
  | CallInvalidate => ctx.invalidate
  | CallAdvance => ctx.advance
  | CallDisposal d => disposalCall d
  end.

(** The invalidation flags, and what [shouldRender] reads. *)
Definition flags (c : ThrelteInternalContext) : bool * bool * gset positive :=
  (frameInvalidated c, advance c, autoInvalidations c).

Definition renderInputs {W} (s : State W)
  : RenderMode * (bool * bool * gset positive) :=
  (renderMode s, flags (internalCtx s)).

(** The invariant of the disposal counts: none is negative, and a zero count
    only waits for the next [dispose] while [shouldDispose] is raised. *)
Definition countsNonNegative (c : ThrelteInternalContext) : Prop :=
  map_Forall (λ _ n, 0 ≤ n) (disposableObjects c).

Definition zeroAwaitsDispose (c : ThrelteInternalContext) : Prop :=
  shouldDispose c = false → map_Forall (λ _ n, n ≠ 0) (disposableObjects c).

(** What a call may do to a stored count when it only ever decrements
    positive counts: the entries stay, no count grows, a count that is not
    positive stays as it is, and no count drops below zero. *)
Definition decremented (m m' : gmap positive Z) : Prop :=
  dom m' = dom m
  ∧ ∀ o n, m !! o = Some n →
      ∃ n', m' !! o = Some n' ∧ n' ≤ n ∧ (n ≤ 0 → n' = n) ∧ (0 ≤ n → 0 ≤ n').

(** A call that leaves the render mode, the world and the invalidation flags
    alone. *)
Definition keepsFlags {W} (s s' : State W) : Prop :=
  renderMode s' = renderMode s
  ∧ world s' = world s
  ∧ flags (internalCtx s') = flags (internalCtx s).

(** ** Dependency resolution of the frame scheduler

    [Scheduler], [Stage] and [Task] are imported from [../frame-scheduling];
    what follows is that module's ordering primitive. *)

Section Resolution.
Context {Key : Type} `{EqDecision Key}.

(** Modelled from the spec: the item of the frame-scheduling module (a Task
    in its Stage, a Stage in its Scheduler) as far as ordering goes: "items
    with a key, before set, and after set". *)
Record Item := {
  key : Key;
  before : list Key;
  after : list Key
}.

(** Modelled from the spec: the error kinds of the frame-scheduling module
    that registration and order resolution can raise. *)
Inductive Error :=
| DuplicateKey (k : Key)
| CyclicDependency (k : Key).

(** Modelled from the spec: what an operation of the frame-scheduling module
    yields, a value or one of its errors. *)
Inductive result (A : Type) :=
| Ok (a : A)
| Err (e : Error).
Arguments Ok {A} _.
Arguments Err {A} _.

(** Modelled from the spec: the edges of the frame-scheduling graph, "an edge
    B→A exists for A after B and an edge A→B exists for A before B";
    [mustPrecede p it] is the edge from [p] to [it]. *)
Definition mustPrecede (p it : Item) : Prop :=
  key p ∈ after it ∨ key it ∈ before p.

#[global] Instance mustPrecede_dec p it : Decision (mustPrecede p it).
Proof. unfold mustPrecede. apply _. Defined.

(** Modelled from the spec: the frame-scheduling graph over keys. Both ends
    are registered items, so that a constraint naming a key that is not in
    the collection is "treated as a no-op constraint (ignored)". *)
Definition edge (items : list Item) (u v : Key) : Prop :=
  ∃ p it, p ∈ items ∧ it ∈ items ∧ key p = u ∧ key it = v ∧ mustPrecede p it.

(** Modelled from the spec: Kahn's readiness test of the frame-scheduling
    sort: no item still pending has to run before [it]. *)
Definition ready (pending : list Item) (it : Item) : Prop :=
  Forall (λ p, ¬ mustPrecede p it) pending.

#[global] Instance ready_dec pending it : Decision (ready pending it).
Proof. unfold ready. apply _. Defined.

(** Modelled from the spec: removal of an item of the frame-scheduling
    collection by key. *)
Definition removeKey (k : Key) (items : list Item) : list Item :=
  filter (λ it, key it ≠ k) items.

(** Modelled from the spec: how the frame-scheduling sort names "at least one
    key participating in the cycle": when no pending item is ready, every
    pending item has a pending predecessor; following the first such
    predecessor as many times as there are pending items ends on a cycle. *)
Fixpoint walkBack (n : nat) (pending : list Item) (it : Item) : Item :=
  match n with
  | O => it
  | S n' =>
    match list_find (λ p, mustPrecede p it) pending with
    | Some (_, p) => walkBack n' pending p
    | None => it
    end
  end.

(** Modelled from the spec: the "Kahn-style topological sort" of the
    frame-scheduling module with its stable tie-breaking
    ("first-registered-first"): [pending] is kept in registration order and
    each round emits the first pending item that is ready. When none is
    ready the graph has a cycle and resolution fails with
    [CyclicDependency]. [None] means that the fuel ran out. *)
Fixpoint kahn (fuel : nat) (pending : list Item) : option (result (list Key)) :=
  match pending with
  | [] => Some (Ok [])
  | first :: _ =>
    match fuel with
    | O => None
    | S fuel' =>
      match list_find (ready pending) pending with
      | None =>
        Some (Err (CyclicDependency
                     (key (walkBack (length pending) pending first))))
      | Some (_, it) =>
        match kahn fuel' (removeKey (key it) pending) with
        | Some (Ok rest) => Some (Ok (key it :: rest))
        | r => r
        end
      end
    end
  end.

(** Modelled from the spec: the dependency-resolution algorithm of the
    frame-scheduling module, "used identically by Stage (over Tasks) and
    Scheduler (over Stages)", over the items in registration order. *)
Definition sortItems (items : list Item) : option (result (list Key)) :=
  kahn (length items) items.

(** Modelled from the spec: the owning collection of the frame-scheduling
    module (the tasks of a Stage, the stages of a Scheduler): the items in
    registration order, the "cached total order" and the "dirty flag that
    forces recomputation". *)
Record Collection := {
  items : list Item;
  cachedOrder : list Key;
  dirty : bool
}.

(** Modelled from the spec: a Stage without tasks, a Scheduler without
    stages, as the frame-scheduling module creates them. *)
Definition emptyCollection : Collection :=
  {| items := []; cachedOrder := []; dirty := false |}.

(** Modelled from the spec: registration in the frame-scheduling module
    ([createTask], [createStage]): "fails with DuplicateKey if key already
    exists", otherwise the item is registered last and the cache is marked
    dirty. *)
Definition create (it : Item) (c : Collection) : result Collection :=
  if decide (key it ∈ key <$> items c) then Err (DuplicateKey (key it))
  else Ok {| items := items c ++ [it];
             cachedOrder := cachedOrder c;
             dirty := true |}.

(** Modelled from the spec: removal in the frame-scheduling module
    ([remove], [removeStage]): unregisters the item and marks the cache
    dirty; removing a key that is absent changes no item. *)
Definition remove (k : Key) (c : Collection) : Collection :=
  {| items := removeKey k (items c);
     cachedOrder := cachedOrder c;
     dirty := true |}.

(** Modelled from the spec: the order query of the frame-scheduling module,
    "lazy — recompute only when the cache is marked dirty"; on a cycle
    "the previous valid cached order is retained". *)
Definition resolveOrder (c : Collection)
  : option (result (list Key) * Collection) :=
  if dirty c then
    match sortItems (items c) with
    | None => None
    | Some (Ok order) =>
      Some (Ok order, {| items := items c; cachedOrder := order; dirty := false |})
    | Some (Err e) => Some (Err e, c)
    end
  else Some (Ok (cachedOrder c), c).

(** Modelled from the spec: several registrations in the frame-scheduling
    module, one after the other; the first failure stops them. *)
Fixpoint createAll (its : list Item) (c : Collection) : result Collection :=
  match its with
  | [] => Ok c
  | it :: its' =>
    match create it c with
    | Ok c' => createAll its' c'
    | Err e => Err e
    end
  end.

(** ** Vocabulary of the ordering claims *)

(** [x] occurs before [y] in [l]. *)
Definition precedes {A} (l : list A) (x y : A) : Prop :=
  ∃ i j, l !! i = Some x ∧ l !! j = Some y ∧ (i < j)%nat.

Definition keys (items : list Item) : list Key := key <$> items.

Definition acyclic (items : list Item) : Prop :=
  ∀ k, ¬ tc (edge items) k k.

Definition cyclic (items : list Item) : Prop :=
  ∃ k, tc (edge items) k k.

#[global] Instance Item_eq_dec : EqDecision Item.
Proof. solve_decision. Defined.

(** [order] honours every constraint between registered items: for
    "A after B", B precedes A; for "A before B", A precedes B. *)
Definition honoursConstraints (items : list Item) (order : list Key) : Prop :=
  ∀ a b, a ∈ items → b ∈ keys items →
    (b ∈ after a → precedes order b (key a))
    ∧ (b ∈ before a → precedes order (key a) b).

(** No ordering relationship, directly or transitively. *)
Definition unrelated (items : list Item) (x y : Key) : Prop :=
  ¬ tc (edge items) x y ∧ ¬ tc (edge items) y x.

(** The stability requirement in the words of the spec: "items with no
    ordering relationship preserve their original registration order". *)
Definition stableAmongUnrelated (items : list Item) (order : list Key) : Prop :=
  ∀ x y, unrelated items x y → precedes (keys items) x y → precedes order x y.

(** An order on which the stability requirement is met: it holds every key
    once, honours every constraint, and keeps every pair of unrelated items
    in registration order. *)
Definition stableOrder (items : list Item) (target : list Key) : Prop :=
  target ≡ₚ keys items
  ∧ honoursConstraints items target
  ∧ stableAmongUnrelated items target.

(** A collection as the operations keep it: keys are unique, and a clean
    cache holds the resolved order of the current items. *)
Definition wfCollection (c : Collection) : Prop :=
  NoDup (keys (items c))
  ∧ (dirty c = false → sortItems (items c) = Some (Ok (cachedOrder c))).

End Resolution.

Arguments Item : clear implicits.
Arguments Error : clear implicits.
Arguments result : clear implicits.
Arguments Collection : clear implicits.
Arguments DuplicateKey {Key} _.
Arguments CyclicDependency {Key} _.
Arguments Ok {Key A} _.
Arguments Err {Key A} _.

(** ** Scenarios *)

Definition item (k : string) (bef aft : list string) : Item string :=
  {| key := k; before := bef; after := aft |}.

(** Three tasks without constraints. *)
Definition tasksABC : list (Item string) :=
  [item "a" [] []; item "b" [] []; item "c" [] []].

(** [second] runs after [first], registered in either order. *)
Definition firstSecond : list (Item string) :=
  [item "first" [] []; item "second" [] ["first"]].

Definition secondFirst : list (Item string) :=
  [item "second" [] ["first"]; item "first" [] []].

(** The constraint set {A after B, B after A}. *)
Definition mutualAB : list (Item string) :=
  [item "A" [] ["B"]; item "B" [] ["A"]].

(** [A] was resolved alone, with [B] not registered yet; then [B] arrived. *)
Definition mutualABCollection : Collection string :=
  {| items := mutualAB; cachedOrder := ["A"]; dirty := true |}.

(** [a] runs after [c], which is registered last; [b] has no constraint. *)
Definition lateDependency : list (Item string) :=
  [item "a" [] ["c"]; item "b" [] []; item "c" [] []].


(** A context in 'on-demand' mode whose frame was reset while one
    invalidation hold is active. *)
Definition heldState : State unit :=
  {| renderMode := OnDemand;
     internalCtx :=
       {| frameInvalidated := false;
          advance := false;
          autoInvalidations := {[1%positive]};
          disposableObjects := ∅;
          shouldDispose := false |};
     world := tt |}.

(** ** Collecting the disposable objects of an object

    [collectDisposableObjects] walks the properties of a JavaScript object.
    An object is modelled by what the function observes of it: its identity,
    what reading [object.dispose] and [object.type] gives, and its
    [Object.entries]. Objects are finite trees here: an object that is shared
    occurs once per place it is referenced from (the function keeps no set of
    visited objects), and a cycle of references, on which the function does
    not return, has no counterpart. *)

(** What [object.dispose] evaluates to: nothing truthy, a function, or some
    other truthy value. *)
Inductive DisposeProp := DisposeAbsent | DisposeFunction | DisposeOther.

(** A property value, by what [typeof] and optional chaining see: a value
    whose [typeof] is not ['object'], [null], or an object. *)
Inductive JsValue (O : Type) :=
| VNotObject
| VNull
| VObject (o : O).
Arguments VNotObject {O}.
Arguments VNull {O}.
Arguments VObject {O} _.

#[local] Set Warnings "-register-all".
Inductive JsObj := mkObj {
  objRef : positive;
  objDispose : DisposeProp;
  objType : option string;
  objEntries : list (string * JsValue JsObj)
}.
#[local] Set Warnings "+register-all".

(** [object?.dispose && typeof object.dispose === 'function' &&
    object.type !== 'Scene'] *)
Definition isDisposable (object : JsObj) : bool :=
  match objDispose object with
  | DisposeFunction => negb (bool_decide (objType object = Some "Scene"))
  | _ => false
  end.

(** [value?.dispose], as a condition. *)
Definition hasDispose (value : JsObj) : bool :=
  match objDispose value with
  | DisposeAbsent => false
  | _ => true
  end.

(** [propKey === 'parent' || propKey === 'children'] *)
Definition skippedKey (propKey : string) : bool :=
  bool_decide (propKey = "parent") || bool_decide (propKey = "children").

(** [collectDisposableObjects] on an object that is not [undefined] or
    [null], with the array it pushes to. *)
Fixpoint collectFrom (object : JsObj) (disposables : list JsObj) : list JsObj :=
  fold_left
    (λ disposables '(propKey, propValue),
       if skippedKey propKey then disposables
       else match propValue with
            | VObject value =>
              if hasDispose value then collectFrom value disposables
              else disposables
            | VNull | VNotObject => disposables
            end)
    (objEntries object)
    (if isDisposable object then disposables ++ [object] else disposables).

(** [collectDisposableObjects(object?, objects?)]: [objects ?? []] is the
    array pushed to and returned; it is returned as it is when [object] is
    missing. *)
Definition collectDisposableObjects
    (object : option JsObj) (objects : option (list JsObj)) : list JsObj :=
  let disposables := default [] objects in
  match object with
  | None => disposables
  | Some object => collectFrom object disposables
  end.

(** The properties the traversal follows: not [parent], not [children], and
    holding an object with a truthy [dispose]. *)
Definition follows (object value : JsObj) : Prop :=
  ∃ propKey, (propKey, VObject value) ∈ objEntries object
             ∧ skippedKey propKey = false
             ∧ hasDispose value = true.

(** What one property contributes to a fresh array. *)
Definition collectedThrough (kv : string * JsValue JsObj) : list JsObj :=
  if skippedKey kv.1 then []
  else match kv.2 with
       | VObject value => if hasDispose value then collectFrom value [] else []
       | VNull | VNotObject => []
       end.

(** What handling one property does to the array pushed to. *)
Definition entryStep (disposables : list JsObj) (kv : string * JsValue JsObj)
  : list JsObj :=
  if skippedKey kv.1 then disposables
  else match kv.2 with
       | VObject value =>
         if hasDispose value then collectFrom value disposables else disposables
       | VNull | VNotObject => disposables
       end.

(** ** Colliders from the meshes of an object

    [createCollidersFromChildren] of the rapier package. JavaScript numbers
    are floating point: the number type and its arithmetic are parameters of
    the model, and so are the quaternions of three.js, the typed-array
    conversions and rapier's convex hull, which may fail. What is modelled is
    what the function itself does: the traversal, the choice of the shape,
    the module-level scratch vectors it reads and writes, and the colliders
    it creates in the world. *)

Module Colliders.
Section Model.
Context {num quat body : Type}.
(** [a + b], [a - b], [a * b], [a / 2], [Math.max(a, b)] and [0]. *)
Variables (add sub mul : num → num → num) (half : num → num)
          (max : num → num → num) (zero : num).
(** [new Quaternion()], [q.invert()], and [a.clone().premultiply(b)]. *)
Variables (identity : quat) (invert : quat → quat) (premultiply : quat → quat → quat).
(** [new Float32Array(xs)] and [new Uint32Array(xs)]. *)
Variables (float32Array uint32Array : list num → list num).
(** Whether [ColliderDesc.convexHull(points)] finds a hull; it is [null]
    when it does not. *)
Variable hullFound : list num → bool.
(** Whether [world.createCollider] accepts a triangle mesh of these vertices
    and indices; it throws when it does not, as on a mesh without a
    triangle. *)
Variable trimeshAccepted : list num → list num → bool.

Record Vector3 := { x : num; y : num; z : num }.

(** [AutoCollidersShapes], as far as the [switch] goes. *)
Inductive AutoCollidersShapes := cuboid | ball | trimesh | capsule | convexHull.

(** What the function reads of a geometry: the bounding box and sphere that
    [computeBoundingBox] and [computeBoundingSphere] leave, the position
    attribute and the index, if any. *)
Record Geometry := {
  boundingBoxSize : Vector3;
  boundingBoxCenter : Vector3;
  boundingSphereRadius : num;
  boundingSphereCenter : Vector3;
  position : list num;
  index : option (list num)
}.

(** An [Object3D] with what [getWorldPosition], [getWorldQuaternion] and
    [getWorldScale] give; [geometry] is there when ['isMesh' in child]. *)
#[local] Set Warnings "-register-all".
Inductive Object3D := mkObject3D {
  geometry : option Geometry;
  getWorldPosition : Vector3;
  getWorldQuaternion : quat;
  getWorldScale : Vector3;
  children : list Object3D
}.
#[local] Set Warnings "+register-all".

(** [object.traverse(callback)] calls back on the object, then traverses
    each child in turn. *)
Fixpoint traverse (object : Object3D) : list Object3D :=
  object :: concat (map traverse (children object)).

(** The shapes of rapier's [ColliderDesc]. *)
Inductive Shape :=
| Cuboid (hx hy hz : num)
| Ball (radius : num)
| Trimesh (vertices indices : list num)
| Capsule (halfHeight radius : num)
| ConvexHull (points : list num).

(** A collider description after [setTranslation], [setRotation] and
    [setActiveEvents(ActiveEvents.COLLISION_EVENTS)]. *)
Record ColliderDesc := {
  shape : Shape;
  translation : Vector3;
  rotation : quat;
  collisionEvents : bool
}.

(** What [world.createCollider(description, rigidBody)] creates. *)
Record Collider := {
  description : ColliderDesc;
  rigidBody : option body
}.

(** The vectors and the quaternion at module level, which every call reuses. *)
Record Scratch := {
  offset : Vector3;
  worldPosition : Vector3;
  worldQuaternion : quat;
  worldScale : Vector3;
  size : Vector3
}.

(** The state the callback of [traverse] works on: the scratch values and the
    colliders created so far, which are both the world's new colliders and
    the array to return. *)
Record Run := {
  scratch : Scratch;
  colliders : list Collider
}.

(** [v.sub(w)] *)
Definition vsub (v w : Vector3) : Vector3 :=
  {| x := sub (x v) (x w); y := sub (y v) (y w); z := sub (z v) (z w) |}.

(** The body of the [switch]: the description, [None] for the [null] of a
    convex hull that is not found, and the scratch [size] and [offset]
    afterwards. *)
Definition describe (collidersType : AutoCollidersShapes) (g : Geometry)
    (scale : Vector3) (size0 offset0 : Vector3)
  : option Shape * Vector3 * Vector3 :=
  match collidersType with
  | cuboid =>
    let size1 := boundingBoxSize g in
    (Some (Cuboid (mul (half (x size1)) (x scale))
                  (mul (half (y size1)) (y scale))
                  (mul (half (z size1)) (z scale))),
     size1, boundingBoxCenter g)
  | ball =>
    (Some (Ball (mul (boundingSphereRadius g) (x scale))),
     size0, boundingSphereCenter g)
  | trimesh =>
    (Some (Trimesh (float32Array (position g))
                   (uint32Array (default [] (index g)))),
     size0, offset0)
  | capsule =>
    let size1 := boundingBoxSize g in
    let radius := max (mul (half (x size1)) (x scale))
                      (mul (half (z size1)) (z scale)) in
    (Some (Capsule (sub (mul (half (y size1)) (y scale)) radius) radius),
     size1, boundingBoxCenter g)
  | convexHull =>
    (if hullFound (float32Array (position g))
     then Some (ConvexHull (float32Array (position g))) else None,
     size0, offset0)
  end.

(** Whether [world.createCollider(description, rigidBody)] creates the
    collider; it throws otherwise, before anything is pushed. *)
Definition created (s : Shape) : bool :=
  match s with
  | Trimesh vertices indices => trimeshAccepted vertices indices
  | Cuboid _ _ _ | Ball _ | Capsule _ _ | ConvexHull _ => true
  end.

(** The callback of [traverse] on one child. [inl] is the state to go on
    with, [inr] the state in which the callback threw:
    [description.setTranslation] on a [null] description, or
    [world.createCollider] on a triangle mesh that is not accepted. *)
Definition visit (collidersType : AutoCollidersShapes)
    (rigidBody : option body) (rigidBodyWorldPos : Vector3)
    (rigidBodyWorldQuatInversed : quat) (r : Run) (child : Object3D)
  : Run + Run :=
  match geometry child with
  | None => inl r
  | Some g =>
    let translation := vsub (getWorldPosition child) rigidBodyWorldPos in
    let worldQuat := getWorldQuaternion child in
    let rotated := premultiply worldQuat rigidBodyWorldQuatInversed in
    let scale := getWorldScale child in
    let '(described, size1, offset1) :=
      describe collidersType g scale (size (scratch r)) (offset (scratch r)) in
    let scratch1 :=
      {| offset := offset1;
         worldPosition := translation;
         worldQuaternion := worldQuat;
         worldScale := scale;
         size := size1 |} in
    match described with
    | None => inr {| scratch := scratch1; colliders := colliders r |}
    | Some shape1 =>
      if created shape1
      then inl {| scratch := scratch1;
                  colliders :=
                    colliders r ++
                    [{| description :=
                          {| shape := shape1;
                             translation :=
                               {| x := add (x translation) (x offset1);
                                  y := add (y translation) (y offset1);
                                  z := add (z translation) (z offset1) |};
                             rotation := rotated;
                             collisionEvents := true |};
                        rigidBody := rigidBody |}] |}
      else inr {| scratch := scratch1; colliders := colliders r |}
    end
  end.

(** The traversal, child by child, until the callback throws. *)
Fixpoint visitAll (f : Run → Object3D → Run + Run) (nodes : list Object3D)
    (r : Run) : Run + Run :=
  match nodes with
  | [] => inl r
  | child :: nodes' =>
    match f r child with
    | inl r' => visitAll f nodes' r'
    | inr r' => inr r'
    end
  end.

(** [createCollidersFromChildren(object, collidersType, world, rigidBody?,
    rigidBodyParentObject?)], run on the scratch values that earlier calls
    left. [inl] holds the scratch values afterwards and the colliders
    returned; [inr] the scratch values and the colliders already created in
    the world when the call threw. *)
Definition createCollidersFromChildren (object : Object3D)
    (collidersType : AutoCollidersShapes) (rigidBody : option body)
    (rigidBodyParentObject : option Object3D) (scratch0 : Scratch)
  : Run + Run :=
  let rigidBodyWorldPos :=
    match rigidBodyParentObject with
    | Some parent => getWorldPosition parent
    | None => {| x := zero; y := zero; z := zero |}
    end in
  let rigidBodyWorldQuatInversed :=
    invert (match rigidBodyParentObject with
            | Some parent => getWorldQuaternion parent
            | None => identity
            end) in
  visitAll (visit collidersType rigidBody rigidBodyWorldPos rigidBodyWorldQuatInversed)
    (traverse object)
    {| scratch := scratch0; colliders := [] |}.

(** The meshes among an object and its descendants, in traversal order. *)
Definition meshes (object : Object3D) : list Object3D :=
  filter (λ child, is_Some (geometry child)) (traverse object).

(** The kind of a shape. *)
Definition shapeKind (s : Shape) : AutoCollidersShapes :=
  match s with
  | Cuboid _ _ _ => cuboid
  | Ball _ => ball
  | Trimesh _ _ => trimesh
  | Capsule _ _ => capsule
  | ConvexHull _ => convexHull
  end.

(** A child for which the [switch] yields a description: anything but a
    mesh whose convex hull is not found. *)
Definition describable (collidersType : AutoCollidersShapes)
    (child : Object3D) : Prop :=
  ∀ g, collidersType = convexHull → geometry child = Some g →
       hullFound (float32Array (position g)) = true.

(** A child whose collider gets created: its description exists, and it is
    accepted by the world when it is a triangle mesh. *)
Definition creatable (collidersType : AutoCollidersShapes)
    (child : Object3D) : Prop :=
  describable collidersType child
  ∧ ∀ g, collidersType = trimesh → geometry child = Some g →
         trimeshAccepted (float32Array (position g))
                         (uint32Array (default [] (index g))) = true.

(** The state a call ends in, whether it returns or throws. *)
Definition finalRun (outcome : Run + Run) : Run :=
  match outcome with
  | inl r | inr r => r
  end.

(** What a collider of one call looks like: attached to the rigid body of
    the call, of the shape asked for, with collision events on. *)
Definition ofThisCall (collidersType : AutoCollidersShapes)
    (rb : option body) (c : Collider) : Prop :=
  rigidBody c = rb
  ∧ shapeKind (shape (description c)) = collidersType
  ∧ collisionEvents (description c) = true.

(** The translation of the collider of a mesh: its world position relative
    to the rigid body, plus the offset. *)
Definition translationFor (rigidBodyWorldPos offset0 : Vector3)
    (child : Object3D) : Vector3 :=
  let translation := vsub (getWorldPosition child) rigidBodyWorldPos in
  {| x := add (x translation) (x offset0);
     y := add (y translation) (y offset0);
     z := add (z translation) (z offset0) |}.

(** [rigidBodyWorldPos] of a call. *)
Definition rigidBodyPosition (rigidBodyParentObject : option Object3D) : Vector3 :=
  match rigidBodyParentObject with
  | Some parent => getWorldPosition parent
  | None => {| x := zero; y := zero; z := zero |}
  end.

End Model.
End Colliders.

(** A scene for the colliders, with integers for the numbers and for the
    quaternions: a group that holds two meshes, the second with too few
    points for a convex hull. *)
Module CollidersScene.
Import Colliders.

Definition vec (a b c : Z) : @Vector3 Z := {| x := a; y := b; z := c |}.

Definition tetrahedron : @Geometry Z :=
  {| boundingBoxSize := vec 2 4 6;
     boundingBoxCenter := vec 1 2 3;
     boundingSphereRadius := 4;
     boundingSphereCenter := vec 1 2 3;
     position := [0; 0; 0; 2; 0; 0; 0; 4; 0; 0; 0; 6];
     index := None |}.

Definition segment : @Geometry Z :=
  {| boundingBoxSize := vec 2 0 0;
     boundingBoxCenter := vec 1 0 0;
     boundingSphereRadius := 1;
     boundingSphereCenter := vec 1 0 0;
     position := [0; 0; 0; 2; 0; 0];
     index := Some [0; 1] |}.

Definition solidMesh : @Object3D Z Z :=
  mkObject3D (Some tetrahedron) (vec 10 0 0) 0 (vec 1 1 1) [].

Definition thinMesh : @Object3D Z Z :=
  mkObject3D (Some segment) (vec 0 10 0) 0 (vec 2 2 2) [].

Definition group : @Object3D Z Z :=
  mkObject3D None (vec 0 0 0) 0 (vec 1 1 1) [solidMesh; thinMesh].

(** An indexed triangle. *)
Definition triangle : @Geometry Z :=
  {| boundingBoxSize := vec 2 4 0;
     boundingBoxCenter := vec 1 2 0;
     boundingSphereRadius := 3;
     boundingSphereCenter := vec 1 2 0;
     position := [0; 0; 0; 2; 0; 0; 0; 4; 0];
     index := Some [0; 1; 2] |}.

Definition triangleMesh : @Object3D Z Z :=
  mkObject3D (Some triangle) (vec 10 0 0) 0 (vec 1 1 1) [].

(** A convex hull needs four points. *)
Definition fourPoints (points : list Z) : bool :=
  bool_decide (12 ≤ length points)%nat.

(** A triangle mesh needs the three indices of a triangle. *)
Definition oneTriangle (vertices indices : list Z) : bool :=
  bool_decide (3 ≤ length indices)%nat.

Definition freshScratch : @Scratch Z Z :=
  {| offset := vec 0 0 0; worldPosition := vec 0 0 0; worldQuaternion := 0;
     worldScale := vec 0 0 0; size := vec 0 0 0 |}.

(** The scratch values after a call that measured a bounding box. *)
Definition usedScratch : @Scratch Z Z :=
  {| offset := vec 1 2 3; worldPosition := vec 9 9 9; worldQuaternion := 0;
     worldScale := vec 1 1 1; size := vec 2 4 6 |}.

(** The function on integers: [x / 2] is the integer quotient, the
    quaternions are added, the typed arrays keep their numbers. *)
Definition create (object : @Object3D Z Z) (collidersType : AutoCollidersShapes)
    (rigidBody : option positive) (parent : option (@Object3D Z Z))
    (scratch0 : @Scratch Z Z) :=
  createCollidersFromChildren Z.add Z.sub Z.mul (λ n, n / 2) Z.max 0
    0 Z.opp Z.add id id fourPoints oneTriangle
    object collidersType rigidBody parent scratch0.

End CollidersScene.

(** ** The auto render task

    [renderStage.createTask(Symbol('threlte-auto-render-task'), (_) => {
       if (useRenderOrders.length > 0) return
       ctx.renderer.render(ctx.scene, ctx.camera.current) })].
    [useRenderOrders] is the array of the legacy frame context, read when
    the task runs; [render] stands for the call of the renderer. *)
Definition autoRenderTask_callback {W D} (useRenderOrders : list Z)
    (render : M W unit) (_ : D) : M W unit :=
  if bool_decide (0 < length useRenderOrders)%nat then ret tt else render.

(** ** Vocabulary of the further properties *)

(** How often [o] occurs in the array handed to [addDisposableObjects] or
    [removeDisposableObjects]. *)
Definition occurrences (o : positive) (objects : list positive) : nat :=
  length (filter (λ x, x = o) objects).

(** The counts are JavaScript numbers, that is doubles: [n + 1] is the
    integer successor only up to 2^53, where it stays at 2^53. The counts of
    a map are exact for an array of objects when every count, and the count
    that adding the array leads to, lies within that range. *)
Definition maxExactCount : Z := 2 ^ 53.

Definition countsExact (m : gmap positive Z) (objects : list positive) : Prop :=
  ∀ o, - maxExactCount ≤ default 0 (m !! o)
       ∧ default 0 (m !! o) + Z.of_nat (occurrences o objects) ≤ maxExactCount.

(** A decrement that stops at zero and leaves a count alone that is not
    positive: what [k] rounds of [removeDisposableObjects] do to a count. *)
Definition decrementBy (k : nat) (n : Z) : Z :=
  Z.min n (Z.max 0 (n - Z.of_nat k)).

(** Calls that raise an invalidation flag. *)
Inductive FlagRaise := RaiseInvalidate | RaiseAdvance.

Definition flagRaise {W} (c : FlagRaise) : M W unit :=
  match c with
  | RaiseInvalidate => ctx.invalidate
  | RaiseAdvance => ctx.advance
  end.

(** A context between frames: no flag raised, no hold, nothing tracked. *)
Definition idleState (mode : RenderMode) : State unit :=
  {| renderMode := mode;
     internalCtx :=
       {| frameInvalidated := false;
          advance := false;
          autoInvalidations := ∅;
          disposableObjects := ∅;
          shouldDispose := false |};
     world := tt |}.

(** A context that tracks object 1, mounted twice. *)
Definition mountedState : State unit :=
  {| renderMode := OnDemand;
     internalCtx :=
       {| frameInvalidated := false;
          advance := false;
          autoInvalidations := ∅;
          disposableObjects := {[1%positive := 2]};
          shouldDispose := false |};
     world := tt |}.

(** A texture, a material that holds the texture as its map, a geometry, and
    a mesh (no [dispose] of its own) in a scene, holding the geometry, the
    material, its parent and its children. *)
Definition textureObj : JsObj :=
  mkObj 4 DisposeFunction (Some "Texture") [("name", VNotObject)].

Definition materialObj : JsObj :=
  mkObj 3 DisposeFunction (Some "MeshBasicMaterial")
    [("color", VObject (mkObj 5 DisposeAbsent None [("r", VNotObject)]));
     ("map", VObject textureObj); ("alphaMap", VNull)].

Definition geometryObj : JsObj :=
  mkObj 2 DisposeFunction (Some "BufferGeometry")
    [("attributes", VObject (mkObj 6 DisposeAbsent None
                               [("position", VObject textureObj)]))].

Definition sceneObj : JsObj :=
  mkObj 7 DisposeFunction (Some "Scene") [("background", VObject textureObj)].

Definition meshObj : JsObj :=
  mkObj 1 DisposeAbsent (Some "Mesh")
    [("parent", VObject sceneObj); ("children", VObject materialObj);
     ("geometry", VObject geometryObj); ("material", VObject materialObj)].

(** * Theorems *)

(** ** The render decision *)

(** [shouldRender] as a function of the state it reads. *)
Lemma shouldRender_run {W} (s : State W) :
  shouldRender s =
  (match renderMode s with
   | Always => true
   | OnDemand => frameInvalidated (internalCtx s)
                 || bool_decide (0 < size (autoInvalidations (internalCtx s)))%nat
   | Manual => advance (internalCtx s)
   end, s).
Proof.
  destruct s as [mode [invalidated adv holds objs sd] w].
  unfold shouldRender, orM, andM, modeIs, bind, gets, ret.
  destruct mode, invalidated; simpl; try done.
  by destruct (bool_decide _).
Qed.

Lemma holds_nonempty (X : gset positive) : (0 < size X)%nat ↔ X ≠ ∅.
Proof.
  rewrite <- (leibniz_equiv_iff X ∅), <- size_non_empty_iff. lia.
Qed.

(** C1: [shouldRender()] returns true exactly when the mode is 'always', or
    the mode is 'on-demand' and the frame is invalidated or some invalidation
    hold is active, or the mode is 'manual' and advance was requested. *)
Theorem shouldRender_iff {W} (s : State W) :
  eval shouldRender s = true ↔
    renderMode s = Always
    ∨ (renderMode s = OnDemand
       ∧ (frameInvalidated (internalCtx s) = true
          ∨ autoInvalidations (internalCtx s) ≠ ∅))
    ∨ (renderMode s = Manual ∧ advance (internalCtx s) = true).
Proof.
  unfold eval. rewrite shouldRender_run. simpl.
  destruct (renderMode s).
  - split; [by left | done].
  - rewrite orb_true_iff, bool_decide_eq_true, holds_nonempty.
    split.
    + intros Hor. right. left. done.
    + intros [Heq | [[_ Hor] | [Heq _]]]; done.
  - split.
    + intros Ha. right. right. done.
    + intros [Heq | [[Heq _] | [_ Ha]]]; done.
Qed.

(** The gate either is the identity or is [runTasks], by [shouldRender]. *)
Lemma renderStage_callback_run {W D} (d : D) (runTasks : M W unit) (s : State W) :
  renderStage_callback d runTasks s =
  if eval shouldRender s then runTasks s else (tt, s).
Proof.
  unfold renderStage_callback, bind, eval. rewrite shouldRender_run. simpl.
  by destruct (match renderMode s with Always => _ | _ => _ end).
Qed.

Lemma shouldRender_withCount {W} (s : State W) n :
  eval shouldRender (withCount s n) = eval shouldRender s.
Proof. unfold eval. rewrite !shouldRender_run. reflexivity. Qed.

(** C2: the gate invokes [runTasks] exactly once when [shouldRender()] is
    true and not at all when it is false; so in 'manual' mode without an
    advance request the tasks never run, and in 'always' mode they run on
    every frame. *)
Theorem gate_invokes_runTasks_iff_shouldRender
    {W D} (d : D) (runTasks : M W unit) (s : State W) :
  let after := exec (renderStage_callback d (counted runTasks)) (withCount s 0) in
  invocations after = (if eval shouldRender s then 1 else 0)%nat
  ∧ withoutCount after = (if eval shouldRender s then exec runTasks s else s)
  ∧ (renderMode s = Manual → advance (internalCtx s) = false →
     invocations after = 0%nat)
  ∧ (renderMode s = Always → invocations after = 1%nat).
Proof.
  assert (Hs : withoutCount (withCount s 0) = s) by by destruct s.
  assert (Hc : ∀ t : State W, withoutCount (withCount t 1) = t)
    by by intros [].
  unfold exec. rewrite renderStage_callback_run, shouldRender_withCount.
  unfold eval. rewrite shouldRender_run. simpl.
  destruct (renderMode s) eqn:Hm; simpl.
  - unfold counted. rewrite Hs. simpl. by rewrite Hc.
  - destruct (_ || _); simpl.
    + unfold counted. rewrite Hs. simpl. by rewrite Hc.
    + by rewrite Hs.
  - destruct (advance (internalCtx s)); simpl.
    + unfold counted. rewrite Hs. simpl. by rewrite Hc.
    + by rewrite Hs.
Qed.

(** C6: [shouldRender()] changes nothing, two calls in a row agree, and its
    result is a function of the mode and the three invalidation flags. *)
Theorem shouldRender_pure {W} (s : State W) :
  exec shouldRender s = s
  ∧ (b1 ← shouldRender; b2 ← shouldRender; ret (b1, b2)) s
    = ((eval shouldRender s, eval shouldRender s), s)
  ∧ ∀ s' : State W, renderInputs s' = renderInputs s →
      eval shouldRender s' = eval shouldRender s.
Proof.
  split_and!.
  - unfold exec. by rewrite shouldRender_run.
  - unfold bind, ret, eval. by rewrite !shouldRender_run.
  - intros s'. unfold renderInputs, flags, eval. rewrite !shouldRender_run.
    simpl. intros [= -> -> -> ->]. done.
Qed.

(** ** Frame effects on the shared context *)

Lemma exec_bind {W A B} (m : M W A) (k : A → M W B) (s : State W) :
  exec (bind m k) s = exec (k (eval m s)) (exec m s).
Proof. unfold exec, eval, bind. by destruct (m s). Qed.

Lemma exec_modifyCtx {W} f (s : State W) :
  exec (modifyCtx f) s =
  {| renderMode := renderMode s; internalCtx := f (internalCtx s); world := world s |}.
Proof. reflexivity. Qed.

Lemma forEach_invariant {W A} (P : State W → Prop)
    (f : A → M W unit) (xs : list A) :
  (∀ x s, P s → P (exec (f x) s)) → ∀ s, P s → P (exec (forEach f xs) s).
Proof.
  intros Hstep. induction xs as [|x xs IH]; intros s Hs; simpl; [done|].
  rewrite exec_bind. apply IH, Hstep, Hs.
Qed.

#[local] Instance keepsFlags_preorder {W} : PreOrder (@keepsFlags W).
Proof.
  split.
  - by intros s.
  - intros s1 s2 s3 (?&?&?) (?&?&?). unfold keepsFlags. split_and!; congruence.
Qed.

#[local] Instance decremented_preorder : PreOrder decremented.
Proof.
  split.
  - intros m. split; [done|]. intros o n Hn. exists n. split_and!; [done|lia|done|done].
  - intros m1 m2 m3 [Hd12 H12] [Hd23 H23]. split; [congruence|].
    intros o n Hn. destruct (H12 o n Hn) as (n' & Hn' & ? & ? & ?).
    destruct (H23 o n' Hn') as (n'' & Hn'' & ? & ? & ?).
    exists n''. split_and!; [done|lia|lia|lia].
Qed.

(** One round of the loop of [addDisposableObjects]. *)
Lemma add_round {W} (obj : positive) (s : State W) :
  let m := disposableObjects (internalCtx s) in
  exec (currentValue ← mapGet obj;
        if truthy currentValue
        then mapSet obj (default 0 currentValue + 1)
        else mapSet obj 1) s =
  exec (modifyCtx (set_disposableObjects
          (<[obj := if truthy (m !! obj) then default 0 (m !! obj) + 1 else 1]> m))) s.
Proof.
  simpl. rewrite exec_bind. unfold mapGet, eval, gets. simpl.
  by destruct (truthy _).
Qed.

(** One round of the loop of [removeDisposableObjects]. *)
Lemma remove_round {W} (obj : positive) (s : State W) :
  let m := disposableObjects (internalCtx s) in
  exec (currentValue ← mapGet obj;
        if truthy currentValue && (0 <? default 0 currentValue)
        then mapSet obj (default 0 currentValue - 1)
        else ret tt) s =
  match m !! obj with
  | Some n =>
    if decide (0 < n)
    then exec (modifyCtx (set_disposableObjects (<[obj := n - 1]> m))) s
    else s
  | None => s
  end.
Proof.
  simpl. rewrite exec_bind. unfold mapGet, eval, gets. simpl.
  destruct (disposableObjects (internalCtx s) !! obj) as [n|] eqn:Hn; simpl; [|done].
  case_decide.
  - replace (n =? 0) with false by lia. replace (0 <? n) with true by lia. done.
  - replace (0 <? n) with false by lia. by rewrite andb_false_r.
Qed.

Lemma addDisposableObjects_keepsFlags {W} objects (s : State W) :
  keepsFlags s (exec (addDisposableObjects objects) s)
  ∧ shouldDispose (internalCtx (exec (addDisposableObjects objects) s))
    = shouldDispose (internalCtx s).
Proof.
  unfold addDisposableObjects.
  apply (forEach_invariant
           (λ t, keepsFlags s t
                 ∧ shouldDispose (internalCtx t) = shouldDispose (internalCtx s))).
  - intros obj t [Hk Hsd]. rewrite add_round. by destruct Hk as (?&?&?).
  - done.
Qed.

Lemma addDisposableObjects_dom {W} objects (s : State W) :
  dom (disposableObjects (internalCtx s))
  ⊆ dom (disposableObjects (internalCtx (exec (addDisposableObjects objects) s))).
Proof.
  unfold addDisposableObjects.
  apply (forEach_invariant
           (λ t, dom (disposableObjects (internalCtx s))
                 ⊆ dom (disposableObjects (internalCtx t)))); [|done].
  intros obj t Ht. rewrite add_round. simpl. rewrite dom_insert_L. set_solver.
Qed.

Lemma addDisposableObjects_invariant {W} objects (s : State W) :
  countsNonNegative (internalCtx s) ∧ zeroAwaitsDispose (internalCtx s) →
  let s' := exec (addDisposableObjects objects) s in
  countsNonNegative (internalCtx s') ∧ zeroAwaitsDispose (internalCtx s').
Proof.
  unfold addDisposableObjects.
  apply (forEach_invariant
           (λ t, countsNonNegative (internalCtx t) ∧ zeroAwaitsDispose (internalCtx t))).
  clear s. intros obj s [Hnn Hz]. rewrite add_round. simpl.
  unfold countsNonNegative, zeroAwaitsDispose in *. simpl.
  assert (Hnew : 0 < (if truthy (disposableObjects (internalCtx s) !! obj)
                      then default 0 (disposableObjects (internalCtx s) !! obj) + 1
                      else 1)).
  { destruct (disposableObjects (internalCtx s) !! obj) as [n|] eqn:Hn; simpl; [|lia].
    specialize (Hnn _ _ Hn). simpl in Hnn. destruct (n =? 0); simpl; lia. }
  split.
  - apply map_Forall_insert_2; [lia | done].
  - intros Hsd. apply map_Forall_insert_2; [lia | by apply Hz].
Qed.

Lemma remove_loop_decremented {W} objects (s : State W) :
  let s' := exec (forEach (λ obj,
      currentValue ← mapGet obj;
      if truthy currentValue && (0 <? default 0 currentValue)
      then mapSet obj (default 0 currentValue - 1)
      else ret tt) objects) s in
  keepsFlags s s'
  ∧ shouldDispose (internalCtx s') = shouldDispose (internalCtx s)
  ∧ decremented (disposableObjects (internalCtx s)) (disposableObjects (internalCtx s')).
Proof.
  apply (forEach_invariant
           (λ t, keepsFlags s t
                 ∧ shouldDispose (internalCtx t) = shouldDispose (internalCtx s)
                 ∧ decremented (disposableObjects (internalCtx s))
                               (disposableObjects (internalCtx t)))).
  - intros obj t (Hk & Hsd & Hdec). rewrite remove_round. simpl.
    destruct (disposableObjects (internalCtx t) !! obj) as [n|] eqn:Hn; [|done].
    case_decide; [|done]. split_and!; [by destruct Hk as (?&?&?) | done |].
    etrans; [exact Hdec|]. simpl. split.
    + rewrite dom_insert_L. apply elem_of_dom_2 in Hn.
      apply set_eq. intros o. rewrite elem_of_union, elem_of_singleton.
      split; [intros [->|?]; done | by right].
    + intros o k Hk'. destruct (decide (o = obj)) as [->|Hne].
      * rewrite lookup_insert_eq. exists (n - 1). simplify_eq. split_and!; [done|lia|lia|lia].
      * rewrite lookup_insert_ne by done. exists k. split_and!; [done|lia|done|done].
  - split_and!; reflexivity.
Qed.

Lemma removeDisposableObjects_spec {W} objects (s : State W) :
  let s' := exec (removeDisposableObjects objects) s in
  keepsFlags s s'
  ∧ shouldDispose (internalCtx s')
    = (if bool_decide (length objects = 0%nat)
       then shouldDispose (internalCtx s) else true)
  ∧ decremented (disposableObjects (internalCtx s)) (disposableObjects (internalCtx s')).
Proof.
  unfold removeDisposableObjects. case_bool_decide.
  - split_and!; reflexivity.
  - simpl. rewrite exec_bind, exec_modifyCtx. simpl.
    destruct (remove_loop_decremented objects s) as (Hk & _ & Hdec).
    by split_and!.
Qed.

Lemma decremented_nonneg m m' :
  decremented m m' → map_Forall (λ _ n, 0 ≤ n) m → map_Forall (λ _ n, 0 ≤ n) m'.
Proof.
  intros [Hdom Hdec] Hnn o n' Hn'.
  assert (is_Some (m !! o)) as [n Hn].
  { apply elem_of_dom. rewrite <- Hdom. by apply elem_of_dom_2 in Hn'. }
  destruct (Hdec o n Hn) as (k & Hk & _ & _ & Hpos). simplify_eq.
  apply Hpos, (Hnn o n Hn).
Qed.

(** The loop of [dispose] over a list of entries: it only deletes, it deletes
    every listed entry that is unmounted (or every listed entry under
    [force]), and it leaves an entry alone that is listed only as mounted. *)
Lemma dispose_loop {W} (force : bool) (entries : list (positive * Z)) (s : State W) :
  let s' := exec (forEach (λ '(object, mounted),
      if (mounted =? 0) || force then mapDelete object else ret tt) entries) s in
  let m := disposableObjects (internalCtx s) in
  let m' := disposableObjects (internalCtx s') in
  keepsFlags s s'
  ∧ shouldDispose (internalCtx s') = shouldDispose (internalCtx s)
  ∧ m' ⊆ m
  ∧ (∀ o n, (o, n) ∈ entries → (n =? 0) || force = true → m' !! o = None)
  ∧ (∀ o, (∀ n, (o, n) ∈ entries → (n =? 0) || force = false) → m' !! o = m !! o).
Proof.
  revert s. induction entries as [|[o1 n1] entries IH]; intros s; simpl.
  - split_and!; try done. intros o n Hin. by apply elem_of_nil in Hin.
  - rewrite exec_bind.
    set (s1 := exec (if (n1 =? 0) || force then mapDelete o1 else ret tt) s).
    destruct (IH s1) as (Hk & Hsd & Hsub & Hdel & Hkeep).
    assert (Hs1 : keepsFlags s s1
                  ∧ shouldDispose (internalCtx s1) = shouldDispose (internalCtx s)
                  ∧ disposableObjects (internalCtx s1) =
                    if (n1 =? 0) || force
                    then delete o1 (disposableObjects (internalCtx s))
                    else disposableObjects (internalCtx s)).
    { unfold s1. by destruct ((n1 =? 0) || force). }
    destruct Hs1 as (Hk1 & Hsd1 & Hm1).
    assert (Hsub1 : disposableObjects (internalCtx s1) ⊆ disposableObjects (internalCtx s)).
    { rewrite Hm1. destruct ((n1 =? 0) || force); [apply delete_subseteq | done]. }
    split_and!.
    + by etrans.
    + congruence.
    + by etrans.
    + intros o n Hin Hcond. apply elem_of_cons in Hin as [[= -> ->]|Hin].
      * eapply lookup_weaken_None; [|exact Hsub].
        rewrite Hm1, Hcond. apply lookup_delete_eq.
      * by apply (Hdel o n).
    + intros o Hall. rewrite Hkeep.
      * rewrite Hm1. destruct ((n1 =? 0) || force) eqn:Hcond; [|done].
        apply lookup_delete_ne. intros ->.
        specialize (Hall n1 ltac:(left)). congruence.
      * intros n Hin. apply Hall. by right.
Qed.

Lemma dispose_exec {W} (force : bool) (s : State W) :
  exec (dispose force) s =
  if negb (shouldDispose (internalCtx s)) && negb force then s
  else exec (modifyCtx (set_shouldDispose false))
         (exec (forEach (λ '(object, mounted),
                  if (mounted =? 0) || force then mapDelete object else ret tt)
                  (map_to_list (disposableObjects (internalCtx s)))) s).
Proof.
  unfold dispose, exec, bind, gets. simpl.
  destruct (negb _ && negb _); [done|].
  by destruct (forEach _ _ s).
Qed.

(** What [dispose] leaves in the map when it runs. *)
Lemma dispose_runs {W} (force : bool) (s : State W) :
  shouldDispose (internalCtx s) = true ∨ force = true →
  let s' := exec (dispose force) s in
  keepsFlags s s'
  ∧ shouldDispose (internalCtx s') = false
  ∧ disposableObjects (internalCtx s')
    = filter (λ kv, (kv.2 =? 0) || force = false) (disposableObjects (internalCtx s)).
Proof.
  intros Hrun. simpl. rewrite dispose_exec.
  replace (negb (shouldDispose (internalCtx s)) && negb force) with false
    by (destruct Hrun as [-> | ->]; [done | by rewrite andb_false_r]).
  rewrite exec_modifyCtx. simpl.
  destruct (dispose_loop force (map_to_list (disposableObjects (internalCtx s))) s)
    as (Hk & _ & Hsub & Hdel & Hkeep).
  split_and!; [done | done |].
  apply map_eq. intros o. apply option_eq. intros n.
  rewrite map_lookup_filter_Some. simpl. split.
  - intros Hn. assert (Hm := lookup_weaken _ _ _ _ Hn Hsub). split; [done|].
    destruct ((n =? 0) || force) eqn:Hcond; [|done].
    rewrite (Hdel o n) in Hn; [done | by apply elem_of_map_to_list | done].
  - intros [Hm Hcond]. rewrite Hkeep; [done|].
    intros n' Hin. apply elem_of_map_to_list in Hin. by simplify_eq.
Qed.

Lemma dispose_skips {W} (s : State W) :
  shouldDispose (internalCtx s) = false → exec (dispose false) s = s.
Proof. intros Hsd. rewrite dispose_exec. by rewrite Hsd. Qed.

Lemma dispose_keepsFlags {W} force (s : State W) :
  keepsFlags s (exec (dispose force) s).
Proof.
  destruct (shouldDispose (internalCtx s)) eqn:Hsd.
  - apply dispose_runs. by left.
  - destruct force.
    + apply dispose_runs. by right.
    + by rewrite dispose_skips.
Qed.

Lemma disposalCall_keepsFlags {W} (c : DisposalCall) (s : State W) :
  keepsFlags s (exec (disposalCall c) s).
Proof.
  destruct c as [objects|objects|force]; simpl.
  - apply addDisposableObjects_keepsFlags.
  - apply removeDisposableObjects_spec.
  - apply dispose_keepsFlags.
Qed.

(** The invariant of the disposal counts is kept by every call. *)
Lemma disposalCall_invariant {W} (c : DisposalCall) (s : State W) :
  countsNonNegative (internalCtx s) ∧ zeroAwaitsDispose (internalCtx s) →
  countsNonNegative (internalCtx (exec (disposalCall c) s))
  ∧ zeroAwaitsDispose (internalCtx (exec (disposalCall c) s)).
Proof.
  intros [Hnn Hz]. destruct c as [objects|objects|force]; simpl.
  - by apply addDisposableObjects_invariant.
  - destruct (removeDisposableObjects_spec objects s) as (_ & Hsd & Hdec).
    split.
    + by eapply decremented_nonneg.
    + unfold zeroAwaitsDispose. rewrite Hsd. case_bool_decide; [|done].
      destruct objects; [|done]. unfold removeDisposableObjects. simpl. exact Hz.
  - assert (Hcases : (shouldDispose (internalCtx s) = true ∨ force = true)
                     ∨ (shouldDispose (internalCtx s) = false ∧ force = false)).
    { destruct (shouldDispose _), force; auto. }
    destruct Hcases as [Hrun | [Hsd ->]]; [| by rewrite dispose_skips].
    destruct (dispose_runs force s Hrun) as (_ & Hsd' & Hm).
    unfold countsNonNegative, zeroAwaitsDispose. rewrite Hm.
    split.
    { intros o n [Hn _]%map_lookup_filter_Some. by apply (Hnn o n). }
    intros _ o n [Hn Hcond]%map_lookup_filter_Some. simpl in Hcond.
    apply orb_false_iff in Hcond as [Hcond _]. lia.
Qed.

Lemma flagClient_keepsFlags_or_raises {W} (c : FlagClient) (s : State W) :
  let s' := exec (flagClient c) s in
  (frameInvalidated (internalCtx s) = true → frameInvalidated (internalCtx s') = true)
  ∧ (advance (internalCtx s) = true → advance (internalCtx s') = true)
  ∧ autoInvalidations (internalCtx s') = autoInvalidations (internalCtx s).
Proof.
  destruct c as [| | |d]; simpl.
  - unfold exec, bind. rewrite shouldRender_run. simpl. tauto.
  - unfold exec. simpl. tauto.
  - unfold exec. simpl. tauto.
  - destruct (disposalCall_keepsFlags d s) as (_ & _ & Hf).
    unfold flags in Hf. injection Hf as Hf1 Hf2 Hf3. by rewrite Hf1, Hf2, Hf3.
Qed.

(** C7: the gate adds no write of its own to what [runTasks] does, no other
    closure on the context lowers an invalidation flag, and one call to
    [resetFrameInvalidation] sets [frameInvalidated] and [advance] to false
    and leaves everything else as it was. *)
Theorem flags_cleared_only_by_resetFrameInvalidation {W} (s : State W) :
  (∀ runTasks : M W unit,
     exec (renderStage_callback tt runTasks) s
     = if eval shouldRender s then exec runTasks s else s)
  ∧ (∀ c : FlagClient,
       let s' := exec (flagClient c) s in
       (frameInvalidated (internalCtx s) = true
        → frameInvalidated (internalCtx s') = true)
       ∧ (advance (internalCtx s) = true → advance (internalCtx s') = true)
       ∧ autoInvalidations (internalCtx s') = autoInvalidations (internalCtx s))
  ∧ exec resetFrameInvalidation s =
      {| renderMode := renderMode s;
         internalCtx :=
           {| frameInvalidated := false;
              advance := false;
              autoInvalidations := autoInvalidations (internalCtx s);
              disposableObjects := disposableObjects (internalCtx s);
              shouldDispose := shouldDispose (internalCtx s) |};
         world := world s |}.
Proof.
  split_and!.
  - intros runTasks. unfold exec at 1. rewrite renderStage_callback_run.
    by destruct (eval shouldRender s).
  - intros c. apply flagClient_keepsFlags_or_raises.
  - reflexivity.
Qed.

(** C8: [resetFrameInvalidation] leaves [autoInvalidations] as it is, so in
    'on-demand' mode a non-empty set still makes [shouldRender()] true right
    after the reset. *)
Theorem holds_survive_resetFrameInvalidation {W} (s : State W) :
  autoInvalidations (internalCtx (exec resetFrameInvalidation s))
  = autoInvalidations (internalCtx s)
  ∧ (renderMode s = OnDemand → autoInvalidations (internalCtx s) ≠ ∅ →
     eval shouldRender (exec resetFrameInvalidation s) = true).
Proof.
  split; [reflexivity|]. intros Hmode Hholds.
  unfold eval. rewrite shouldRender_run. simpl. rewrite Hmode. simpl.
  by apply bool_decide_eq_true, holds_nonempty.
Qed.

(** C9: [invalidate()] sets [frameInvalidated] to true and [advance()] sets
    [advance] to true, each changing nothing else, in every state; and from a
    state where [shouldRender()] is false, [invalidate()] does not make it
    true in 'manual' mode and [advance()] does not make it true in
    'on-demand' mode. *)
Theorem invalidate_advance_mode_isolated {W} (s : State W) :
  exec ctx.invalidate s =
    {| renderMode := renderMode s;
       internalCtx :=
         {| frameInvalidated := true;
            advance := advance (internalCtx s);
            autoInvalidations := autoInvalidations (internalCtx s);
            disposableObjects := disposableObjects (internalCtx s);
            shouldDispose := shouldDispose (internalCtx s) |};
       world := world s |}
  ∧ exec ctx.advance s =
      {| renderMode := renderMode s;
         internalCtx :=
           {| frameInvalidated := frameInvalidated (internalCtx s);
              advance := true;
              autoInvalidations := autoInvalidations (internalCtx s);
              disposableObjects := disposableObjects (internalCtx s);
              shouldDispose := shouldDispose (internalCtx s) |};
         world := world s |}
  ∧ (eval shouldRender s = false → renderMode s = Manual →
     eval shouldRender (exec ctx.invalidate s) = false)
  ∧ (eval shouldRender s = false → renderMode s = OnDemand →
     eval shouldRender (exec ctx.advance s) = false).
Proof.
  split_and!; try reflexivity.
  - unfold eval. rewrite !shouldRender_run. simpl. intros Hoff Hmode.
    by rewrite Hmode in *.
  - unfold eval. rewrite !shouldRender_run. simpl. intros Hoff Hmode.
    by rewrite Hmode in *.
Qed.

(** C10: after any sequence of [addDisposableObjects],
    [removeDisposableObjects] and [dispose] calls on a fresh context no stored
    count is negative; adding and removing never delete an entry, removing
    only decrements positive counts; [dispose] deletes exactly the entries
    whose count is zero, and every entry under [force]. *)
Theorem disposal_counts_never_negative {W} (mode : RenderMode) (w : W)
    (calls : list DisposalCall) :
  let s := exec (forEach disposalCall calls) (initialState mode w) in
  let m := disposableObjects (internalCtx s) in
  map_Forall (λ _ n, 0 ≤ n) m
  ∧ (∀ objects,
       dom m ⊆ dom (disposableObjects
                      (internalCtx (exec (addDisposableObjects objects) s))))
  ∧ (∀ objects,
       decremented m (disposableObjects
                        (internalCtx (exec (removeDisposableObjects objects) s))))
  ∧ disposableObjects (internalCtx (exec (dispose false) s))
    = filter (λ kv, kv.2 ≠ 0) m
  ∧ disposableObjects (internalCtx (exec (dispose true) s)) = ∅.
Proof.
  intros s m.
  assert (Hinv : countsNonNegative (internalCtx s) ∧ zeroAwaitsDispose (internalCtx s)).
  { apply (forEach_invariant
             (λ t, countsNonNegative (internalCtx t) ∧ zeroAwaitsDispose (internalCtx t))).
    - intros c t. apply disposalCall_invariant.
    - split; [apply map_Forall_empty | intros _; apply map_Forall_empty]. }
  destruct Hinv as [Hnn Hz]. split_and!.
  - exact Hnn.
  - intros objects. apply addDisposableObjects_dom.
  - intros objects. apply removeDisposableObjects_spec.
  - destruct (shouldDispose (internalCtx s)) eqn:Hsd.
    + destruct (dispose_runs false s) as (_ & _ & ->); [by left|].
      apply map_filter_ext. intros o n _. simpl. rewrite orb_false_r. lia.
    + rewrite dispose_skips by done. symmetry. apply map_filter_id.
      intros o n Hn. simpl. by apply (Hz Hsd o n).
  - destruct (dispose_runs true s) as (_ & _ & ->); [by right|].
    apply map_eq. intros o. rewrite lookup_empty. apply eq_None_not_Some.
    intros [n [_ Hcond]%map_lookup_filter_Some]. simpl in Hcond.
    by rewrite orb_true_r in Hcond.
Qed.

(** ** Order resolution *)

Section ListOrder.
Context {A : Type}.
Implicit Types l : list A.

Lemma precedes_elem_of l x y : precedes l x y → x ∈ l ∧ y ∈ l.
Proof.
  intros (i & j & Hi & Hj & _). split; by eapply list_elem_of_lookup_2.
Qed.

Lemma precedes_cons_head l x y : y ∈ l → precedes (x :: l) x y.
Proof.
  intros [j Hj]%list_elem_of_lookup_1. exists 0%nat, (S j). split_and!; [done|done|lia].
Qed.

Lemma precedes_cons_tail l a x y : precedes l x y → precedes (a :: l) x y.
Proof.
  intros (i & j & Hi & Hj & Hlt). exists (S i), (S j). split_and!; [done|done|lia].
Qed.

Lemma precedes_irrefl l x : NoDup l → ¬ precedes l x x.
Proof.
  intros Hnd (i & j & Hi & Hj & Hlt).
  pose proof (NoDup_lookup _ _ _ _ Hnd Hi Hj). lia.
Qed.

Lemma precedes_trans l x y z :
  NoDup l → precedes l x y → precedes l y z → precedes l x z.
Proof.
  intros Hnd (i & j & Hi & Hj & Hij) (j' & k & Hj' & Hk & Hjk).
  pose proof (NoDup_lookup _ _ _ _ Hnd Hj Hj'). subst j'.
  exists i, k. split_and!; [done|done|lia].
Qed.

Lemma precedes_cons_inv l a x y :
  precedes (a :: l) x y → (x = a ∧ y ∈ l) ∨ precedes l x y.
Proof.
  intros (i & j & Hi & Hj & Hlt). destruct j as [|j]; [lia|]. simpl in Hj.
  destruct i as [|i]; simpl in Hi.
  - left. split; [congruence | by eapply list_elem_of_lookup_2].
  - right. exists i, j. split_and!; [done|done|lia].
Qed.

(** Nothing comes before the head of a duplicate-free list. *)
Lemma precedes_head l m u : NoDup (m :: l) → ¬ precedes (m :: l) u m.
Proof.
  intros Hnd (i & j & Hi & Hj & Hlt).
  assert (j = 0%nat) by (by apply (NoDup_lookup (m :: l) j 0%nat m)). lia.
Qed.

(** What comes first in a filtered list came first in the list. *)
Lemma precedes_filter_inv (P : A → Prop) `{!∀ x, Decision (P x)} l x y :
  precedes (filter P l) x y → precedes l x y.
Proof.
  induction l as [|a l IH]; [by intros (i & j & Hi & _)|].
  rewrite filter_cons. case_decide.
  - intros [[-> Hy] | Hxy]%precedes_cons_inv.
    + apply precedes_cons_head. by apply list_elem_of_filter in Hy as [_ ?].
    + by apply precedes_cons_tail, IH.
  - intros Hxy. by apply precedes_cons_tail, IH.
Qed.

Lemma tc_last_step (R : relation A) x y : tc R x y → ∃ z, R z y.
Proof. induction 1 as [x y Hxy | x y z _ _ IH]; [by exists x | exact IH]. Qed.

(** A relation that the order of a duplicate-free list respects has no
    cycle. *)
Lemma precedes_tc (R : relation A) l :
  NoDup l → (∀ x y, R x y → precedes l x y) → ∀ x y, tc R x y → precedes l x y.
Proof.
  intros Hnd HR x y Hxy. induction Hxy as [x y Hxy | x y z Hxy _ IH].
  - by apply HR.
  - eapply precedes_trans; [done | by apply HR | done].
Qed.

(** Filtering keeps the relative order of what it keeps. *)
Lemma precedes_filter (P : A → Prop) `{!∀ x, Decision (P x)} l x y :
  precedes l x y → P x → P y → precedes (filter P l) x y.
Proof.
  intros (i & j & Hi & Hj & Hlt) Hx Hy.
  apply list_elem_of_split_length in Hi as (l1 & l2 & -> & ->).
  rewrite lookup_app_r in Hj by lia.
  destruct (j - length l1)%nat as [|j'] eqn:Hj'; [lia|]. simpl in Hj.
  apply list_elem_of_split_length in Hj as (l3 & l4 & -> & ->).
  rewrite filter_app, filter_cons_True, filter_app, filter_cons_True by done.
  exists (length (filter P l1)), (length (filter P l1) + S (length (filter P l3)))%nat.
  split_and!; [| |lia].
  - by rewrite lookup_app_r, Nat.sub_diag by lia.
  - rewrite lookup_app_r by lia.
    replace (length (filter P l1) + S (length (filter P l3)) - length (filter P l1))%nat
      with (S (length (filter P l3))) by lia.
    simpl. by rewrite lookup_app_r, Nat.sub_diag by lia.
Qed.

(** A list either has no duplicate or shows one at two positions. *)
Lemma NoDup_or_repeat `{!EqDecision A} l :
  NoDup l ∨ ∃ i j x, (i < j)%nat ∧ l !! i = Some x ∧ l !! j = Some x.
Proof.
  induction l as [|a l [IH|(i & j & x & Hlt & Hi & Hj)]].
  - left. constructor.
  - destruct (decide (a ∈ l)) as [[j Hj]%list_elem_of_lookup_1|Hnotin].
    + right. exists 0%nat, (S j), a. split_and!; [lia|done|done].
    + left. by constructor.
  - right. exists (S i), (S j), x. split_and!; [lia|done|done].
Qed.

End ListOrder.

Section ResolutionFacts.
Context {Key : Type} `{EqDecision Key}.
Implicit Types (pending items : list (Item Key)) (it p : Item Key) (k u v : Key).

Lemma elem_of_removeKey k items it :
  it ∈ removeKey k items ↔ it ∈ items ∧ key it ≠ k.
Proof. unfold removeKey. rewrite list_elem_of_filter. tauto. Qed.

Lemma keys_removeKey k items :
  keys (removeKey k items) = filter (λ k', k' ≠ k) (keys items).
Proof.
  unfold keys, removeKey. induction items as [|a items IH]; [done|].
  rewrite fmap_cons, !filter_cons.
  destruct (decide (key a ≠ k)); [rewrite fmap_cons|]; by rewrite IH.
Qed.

Lemma elem_of_keys_removeKey k items u :
  u ∈ keys (removeKey k items) ↔ u ∈ keys items ∧ u ≠ k.
Proof. rewrite keys_removeKey, list_elem_of_filter. tauto. Qed.

Lemma NoDup_keys_removeKey k items :
  NoDup (keys items) → NoDup (keys (removeKey k items)).
Proof. rewrite keys_removeKey. apply NoDup_filter. Qed.

Lemma removeKey_shorter items it :
  it ∈ items → (length (removeKey (key it) items) < length items)%nat.
Proof. intros Hin. apply (length_filter_lt _ _ it); [done | by intros []]. Qed.

Lemma elem_of_keys items it : it ∈ items → key it ∈ keys items.
Proof. intros Hin. apply list_elem_of_fmap. by exists it. Qed.

(** With unique keys an item is known by its key. *)
Lemma key_inj_on items it p :
  NoDup (keys items) → it ∈ items → p ∈ items → key it = key p → it = p.
Proof.
  intros Hnd [i Hi]%list_elem_of_lookup_1 [j Hj]%list_elem_of_lookup_1 Hkey.
  assert (i = j) as ->; [|congruence].
  apply (NoDup_lookup (keys items) i j (key it) Hnd).
  - unfold keys. by rewrite list_lookup_fmap, Hi.
  - unfold keys. by rewrite list_lookup_fmap, Hj, Hkey.
Qed.

Lemma edge_elem_of items u v : edge items u v → u ∈ keys items ∧ v ∈ keys items.
Proof.
  intros (p & it & Hp & Hit & <- & <- & _). split; by apply elem_of_keys.
Qed.

Lemma tc_edge_elem_of items u v :
  tc (edge items) u v → u ∈ keys items ∧ v ∈ keys items.
Proof.
  induction 1 as [u v Huv | u v w Huv _ [_ Hw]].
  - by apply edge_elem_of.
  - split; [by apply edge_elem_of in Huv as [? _] | done].
Qed.

(** Edges only depend on the two items they join. *)
Lemma edge_mono pending items u v :
  (∀ it, it ∈ pending → it ∈ items) → edge pending u v → edge items u v.
Proof.
  intros Hsub (p & it & Hp & Hit & Hu & Hv & Hedge).
  exists p, it. split_and!; auto.
Qed.

Lemma tc_edge_mono pending items u v :
  (∀ it, it ∈ pending → it ∈ items) →
  tc (edge pending) u v → tc (edge items) u v.
Proof.
  intros Hsub. apply (tc_congruence id). intros x y. by apply edge_mono.
Qed.

Lemma edge_removeKey k items u v :
  edge items u v → u ≠ k → v ≠ k → edge (removeKey k items) u v.
Proof.
  intros (p & it & Hp & Hit & <- & <- & Hedge) Hu Hv.
  exists p, it. rewrite !elem_of_removeKey. by split_and!.
Qed.

(** One round of the sort, for a non-empty list of pending items. *)
Lemma kahn_round fuel pending first :
  head pending = Some first →
  kahn (S fuel) pending =
  match list_find (ready pending) pending with
  | None => Some (Err (CyclicDependency
                         (key (walkBack (length pending) pending first))))
  | Some (_, it) =>
    match kahn fuel (removeKey (key it) pending) with
    | Some (Ok rest) => Some (Ok (key it :: rest))
    | r => r
    end
  end.
Proof. destruct pending; [done|]. by intros [= ->]. Qed.

(** The sort never runs out of fuel when given the number of pending items. *)
Lemma kahn_total fuel pending :
  (length pending ≤ fuel)%nat → is_Some (kahn fuel pending).
Proof.
  revert pending. induction fuel as [|fuel IH]; intros pending Hlen.
  - destruct pending; [by eexists | simpl in Hlen; lia].
  - destruct (head pending) as [first|] eqn:Hhead;
      [|destruct pending; [by eexists | done]].
    rewrite (kahn_round _ _ _ Hhead).
    destruct (list_find _ _) as [[i it]|] eqn:Hfind; [|by eexists].
    apply list_find_Some in Hfind as (Hi & _ & _).
    apply list_elem_of_lookup_2 in Hi.
    destruct (IH (removeKey (key it) pending)) as [[order|e] ->]; [|by eexists..].
    pose proof (removeKey_shorter pending it Hi). lia.
Qed.

(** A successful sort lists the keys of the pending items, each once. *)
Lemma kahn_Ok_keys fuel pending order :
  kahn fuel pending = Some (Ok order) →
  NoDup order ∧ ∀ k, k ∈ order ↔ k ∈ keys pending.
Proof.
  revert pending order. induction fuel as [|fuel IH]; intros pending order Hsort.
  - destruct pending; [|done]. injection Hsort as <-.
    split; [constructor | done].
  - destruct (head pending) as [first|] eqn:Hhead.
    2: { destruct pending; [|done]. injection Hsort as <-. split; [constructor | done]. }
    rewrite (kahn_round _ _ _ Hhead) in Hsort.
    destruct (list_find _ _) as [[i it]|] eqn:Hfind; [|done].
    apply list_find_Some in Hfind as (Hi & _ & _).
    apply list_elem_of_lookup_2, elem_of_keys in Hi.
    destruct (kahn fuel (removeKey (key it) pending)) as [[rest|e]|] eqn:Hrest;
      [|done..]. injection Hsort as <-.
    destruct (IH _ _ Hrest) as [Hnd Hmem]. split.
    + constructor; [|done]. rewrite Hmem, elem_of_keys_removeKey. tauto.
    + intros k. rewrite elem_of_cons, Hmem, elem_of_keys_removeKey.
      destruct (decide (k = key it)) as [->|]; tauto.
Qed.

(** A successful sort puts the source of every edge before its target. *)
Lemma kahn_Ok_edges fuel pending order :
  NoDup (keys pending) →
  kahn fuel pending = Some (Ok order) →
  ∀ u v, edge pending u v → precedes order u v.
Proof.
  revert pending order. induction fuel as [|fuel IH]; intros pending order Hnd Hsort.
  - destruct pending; [|done]. intros u v (p & _ & Hp & _). by apply elem_of_nil in Hp.
  - destruct (head pending) as [first|] eqn:Hhead.
    2: { destruct pending; [|done]. intros u v (p & _ & Hp & _). by apply elem_of_nil in Hp. }
    rewrite (kahn_round _ _ _ Hhead) in Hsort.
    destruct (list_find _ _) as [[i it]|] eqn:Hfind; [|done].
    apply list_find_Some in Hfind as (Hi & Hready & _).
    apply list_elem_of_lookup_2 in Hi.
    destruct (kahn fuel (removeKey (key it) pending)) as [[rest|e]|] eqn:Hrest;
      [|done..]. injection Hsort as <-.
    intros u v Huv.
    destruct (decide (v = key it)) as [->|Hv].
    { destruct Huv as (p & q & Hp & Hq & <- & Hkey & Hedge).
      assert (q = it) as -> by by apply (key_inj_on pending).
      unfold ready in Hready. rewrite Forall_forall in Hready.
      by destruct (Hready p Hp). }
    destruct (decide (u = key it)) as [->|Hu].
    { apply precedes_cons_head. apply (kahn_Ok_keys _ _ _ Hrest).
      apply elem_of_keys_removeKey. split; [|done]. by apply edge_elem_of in Huv as [_ ?]. }
    apply precedes_cons_tail, (IH _ _ (NoDup_keys_removeKey _ _ Hnd) Hrest).
    by apply edge_removeKey.
Qed.

(** Hence a graph that sorts successfully has no cycle. *)
Lemma kahn_Ok_acyclic fuel pending order :
  NoDup (keys pending) → kahn fuel pending = Some (Ok order) → acyclic pending.
Proof.
  intros Hnd Hsort k Hcycle.
  destruct (kahn_Ok_keys _ _ _ Hsort) as [Hnd' _].
  apply (precedes_irrefl order k Hnd').
  by apply (precedes_tc (edge pending) order Hnd' (kahn_Ok_edges _ _ _ Hnd Hsort)).
Qed.

(** *** Naming a key on the cycle *)

Section Stuck.
Context (pending : list (Item Key)).
Hypothesis Hstuck : list_find (ready pending) pending = None.

Lemma stuck_predecessor it :
  it ∈ pending →
  ∃ i p, list_find (λ p, mustPrecede p it) pending = Some (i, p).
Proof using Hstuck.
  intros Hin. destruct (list_find (λ p, mustPrecede p it) pending) as [[i p]|] eqn:Hfind.
  - by exists i, p.
  - apply list_find_None in Hfind. apply list_find_None in Hstuck.
    rewrite Forall_forall in Hstuck. by destruct (Hstuck it Hin).
Qed.

Lemma walkBack_elem_of n it : it ∈ pending → walkBack n pending it ∈ pending.
Proof using Hstuck.
  revert it. induction n as [|n IH]; intros it Hin; simpl; [done|].
  destruct (stuck_predecessor it Hin) as (i & p & Hfind). rewrite Hfind.
  apply IH. apply list_find_Some in Hfind as (Hi & _). by eapply list_elem_of_lookup_2.
Qed.

Lemma walkBack_path n it :
  it ∈ pending → (0 < n)%nat →
  tc (edge pending) (key (walkBack n pending it)) (key it).
Proof using Hstuck.
  revert it. induction n as [|n IH]; intros it Hin Hn; [lia|]. simpl.
  destruct (stuck_predecessor it Hin) as (i & p & Hfind). rewrite Hfind.
  apply list_find_Some in Hfind as (Hi & Hedge & _).
  apply list_elem_of_lookup_2 in Hi.
  assert (edge pending (key p) (key it)) by (by exists p, it).
  destruct n as [|n]; [by apply tc_once|].
  eapply tc_r; [apply IH; [done | lia] | done].
Qed.

End Stuck.

Lemma walkBack_add a b pending it :
  walkBack (a + b) pending it = walkBack b pending (walkBack a pending it).
Proof.
  revert it. induction a as [|a IH]; intros it; simpl; [done|].
  destruct (list_find _ _) as [[i p]|] eqn:Hfind; [apply IH|].
  destruct a, b; simpl; by rewrite ?Hfind.
Qed.

(** When no pending item is ready, walking back as many steps as there are
    pending items ends on an item that lies on a cycle. *)
Lemma stuck_cycle pending first :
  list_find (ready pending) pending = None →
  first ∈ pending →
  tc (edge pending) (key (walkBack (length pending) pending first))
                    (key (walkBack (length pending) pending first)).
Proof.
  intros Hstuck Hfirst. set (n := length pending).
  set (visited := (λ i, walkBack i pending first) <$> seq 0 (S n)).
  destruct (NoDup_or_repeat visited) as [Hnd|(i & j & x & Hlt & Hi & Hj)].
  - assert (Hlen : (length visited ≤ length pending)%nat).
    { apply submseteq_length, NoDup_submseteq; [done|].
      intros x (i & -> & _)%list_elem_of_fmap. by apply walkBack_elem_of. }
    unfold visited in Hlen. rewrite length_fmap, length_seq in Hlen. lia.
  - unfold visited in Hi, Hj. rewrite list_lookup_fmap in Hi, Hj.
    destruct (seq 0 (S n) !! i) as [i'|] eqn:Hi'; [|done].
    destruct (seq 0 (S n) !! j) as [j'|] eqn:Hj'; [|done].
    apply lookup_seq in Hi' as [-> Hin]. apply lookup_seq in Hj' as [-> Hjn].
    simpl in Hi, Hj. injection Hi as Hi. injection Hj as Hj.
    set (period := (j - i)%nat).
    assert (Hloop : walkBack period pending x = x).
    { rewrite <- Hi at 1. rewrite <- walkBack_add.
      by replace (i + period)%nat with j by (unfold period; lia). }
    assert (Hlast : walkBack n pending first = walkBack (n - i) pending x).
    { rewrite <- Hi, <- walkBack_add. f_equal. lia. }
    assert (Hback : walkBack period pending (walkBack n pending first)
                    = walkBack n pending first).
    { rewrite Hlast, <- walkBack_add.
      replace (n - i + period)%nat with (period + (n - i))%nat by lia.
      by rewrite walkBack_add, Hloop. }
    rewrite <- Hback at 1. apply walkBack_path; [done | | unfold period; lia].
    by apply walkBack_elem_of.
Qed.

(** A sort that fails names a key on a cycle of the pending items. *)
Lemma kahn_Err_cycle fuel pending e :
  kahn fuel pending = Some (Err e) →
  ∃ k, e = CyclicDependency k ∧ tc (edge pending) k k.
Proof.
  revert pending. induction fuel as [|fuel IH]; intros pending Hsort.
  - by destruct pending.
  - destruct (head pending) as [first|] eqn:Hhead; [|by destruct pending].
    rewrite (kahn_round _ _ _ Hhead) in Hsort.
    destruct (list_find _ _) as [[i it]|] eqn:Hfind.
    + destruct (kahn fuel (removeKey (key it) pending)) as [[rest|e']|] eqn:Hrest;
        [done| |done]. injection Hsort as ->.
      destruct (IH _ Hrest) as (k & -> & Hcycle). exists k. split; [done|].
      eapply tc_edge_mono; [|done]. intros p Hp. by apply elem_of_removeKey in Hp as [? _].
    + injection Hsort as <-. eexists. split; [done|].
      apply stuck_cycle; [done|]. destruct pending; [done|].
      injection Hhead as ->. left.
Qed.

Lemma sortItems_total items : is_Some (sortItems items).
Proof. by apply kahn_total. Qed.

(** *** The operations keep a collection well formed *)

Lemma wfCollection_empty : wfCollection (@emptyCollection Key).
Proof. split; [constructor | done]. Qed.

Lemma wfCollection_create it c c' :
  wfCollection c → create it c = Ok c' → wfCollection c'.
Proof.
  intros [Hnd _]. unfold create. case_decide as Hfresh; [done|].
  intros [= <-]. split; [|done]. simpl. unfold keys in *.
  rewrite fmap_app. apply NoDup_app. split_and!; [done| |by apply NoDup_singleton].
  intros k Hk ->%list_elem_of_singleton. done.
Qed.

Lemma wfCollection_remove k (c : Collection Key) :
  wfCollection c → wfCollection (remove k c).
Proof. intros [Hnd _]. split; [by apply NoDup_keys_removeKey | done]. Qed.

Lemma wfCollection_resolveOrder (c c' : Collection Key) r :
  wfCollection c → resolveOrder c = Some (r, c') → wfCollection c'.
Proof.
  intros Hwf. pose proof Hwf as [Hnd Hclean]. unfold resolveOrder.
  destruct (dirty c) eqn:Hdirty; [|by intros [= _ <-]].
  destruct (sortItems (items c)) as [[order|e]|] eqn:Hsort; [| |done].
  - intros [= <- <-]. by split.
  - intros [= <- <-]. split; [done | congruence].
Qed.

(** C3: for unique keys and an acyclic graph the resolution returns an order
    that holds every item exactly once and in which, for every constraint
    between registered items, "A after B" puts B before A and "A before B"
    puts A before B. *)
Theorem sortItems_acyclic_topological items :
  NoDup (keys items) → acyclic items →
  ∃ order, sortItems items = Some (Ok order)
           ∧ order ≡ₚ keys items
           ∧ NoDup order
           ∧ honoursConstraints items order.
Proof.
  intros Hnd Hacyclic.
  destruct (sortItems_total items) as [[order|e] Hsort].
  2: { apply kahn_Err_cycle in Hsort as (k & _ & Hcycle). by destruct (Hacyclic k). }
  exists order. destruct (kahn_Ok_keys _ _ _ Hsort) as [Hnd' Hmem].
  split_and!; [done | by apply NoDup_Permutation | done |].
  intros a b Ha [q [-> Hq]]%list_elem_of_fmap. split; intros Hb.
  - apply (kahn_Ok_edges _ _ _ Hnd Hsort). exists q, a. split_and!; try done. by left.
  - apply (kahn_Ok_edges _ _ _ Hnd Hsort). exists a, q. split_and!; try done. by right.
Qed.

(** C4: on a graph with a cycle the order query returns, it fails with
    [CyclicDependency] naming a key that lies on a cycle, and it leaves the
    collection, with its cached order and all its items, as it was. *)
Theorem resolveOrder_cyclic_fails (c : Collection Key) :
  wfCollection c → cyclic (items c) →
  ∃ k, resolveOrder c = Some (Err (CyclicDependency k), c)
       ∧ tc (edge (items c)) k k.
Proof.
  intros [Hnd Hclean] [k0 Hcycle].
  assert (Hfails : ∀ order, sortItems (items c) ≠ Some (Ok order)).
  { intros order Hsort. by apply (kahn_Ok_acyclic _ _ _ Hnd Hsort k0). }
  unfold resolveOrder. destruct (dirty c).
  2: { by destruct (Hfails (cachedOrder c)); apply Hclean. }
  destruct (sortItems_total (items c)) as [[order|e] Hsort].
  { by destruct (Hfails order). }
  rewrite Hsort. apply kahn_Err_cycle in Hsort as (k & -> & Hk). by exists k.
Qed.

(** *** Stability *)

(** Items without constraints resolve to their registration order. *)
Lemma sortItems_unconstrained items :
  NoDup (keys items) →
  Forall (λ it, before it = [] ∧ after it = []) items →
  sortItems items = Some (Ok (keys items)).
Proof.
  unfold sortItems. induction items as [|a items IH]; intros Hnd Hfree; [done|].
  apply NoDup_cons in Hnd as [Hfresh Hnd]. pose proof Hfree as Hall.
  apply Forall_cons in Hfree as [[Hbefore Hafter] Hfree].
  change (length (a :: items)) with (S (length items)).
  rewrite (kahn_round _ _ a) by done.
  assert (Hready : ready (a :: items) a).
  { unfold ready. eapply Forall_impl; [exact Hall|]. simpl.
    intros p [Hp _] [Hin|Hin].
    - rewrite Hafter in Hin. by apply elem_of_nil in Hin.
    - rewrite Hp in Hin. by apply elem_of_nil in Hin. }
  assert (Hfind : list_find (ready (a :: items)) (a :: items) = Some (0%nat, a)).
  { apply list_find_Some. split_and!; [done | done | intros; lia]. }
  rewrite Hfind.
  assert (Hrest : removeKey (key a) (a :: items) = items).
  { unfold removeKey. rewrite filter_cons_False by (by intros []).
    clear -Hfresh. induction items as [|b items IH]; [done|].
    rewrite filter_cons_True.
    - f_equal. apply IH. intros Hin. apply Hfresh. by right.
    - intros Heq. apply Hfresh. rewrite <- Heq. left. }
  by rewrite Hrest, (IH Hnd Hfree).
Qed.

(** No edge enters an item that is ready. *)
Lemma ready_no_edge pending it u :
  NoDup (keys pending) → it ∈ pending → ready pending it →
  ¬ edge pending u (key it).
Proof.
  intros Hnd Hin Hready (p & q & Hp & Hq & _ & Hkey & Hedge).
  assert (q = it) as -> by by apply (key_inj_on pending).
  unfold ready in Hready. rewrite Forall_forall in Hready.
  by destruct (Hready p Hp).
Qed.

(** Removing an item that is ready cuts no path between the other items. *)
Lemma tc_edge_removeKey pending it x y :
  NoDup (keys pending) → it ∈ pending → ready pending it →
  tc (edge pending) x y → x ≠ key it →
  tc (edge (removeKey (key it) pending)) x y.
Proof.
  intros Hnd Hin Hready Hxy.
  induction Hxy as [x y Hxy | x z y Hxz _ IH]; intros Hx.
  - apply tc_once, edge_removeKey; [done | done |].
    intros ->. by apply (ready_no_edge pending it x).
  - assert (z ≠ key it) by (intros ->; by apply (ready_no_edge pending it x)).
    eapply tc_l; [by apply edge_removeKey | by apply IH].
Qed.

Lemma honoursConstraints_edges items target :
  honoursConstraints items target →
  ∀ u v, edge items u v → precedes target u v.
Proof.
  intros Hhonours u v (p & it & Hp & Hit & <- & <- & [Hafter | Hbefore]).
  - by apply (Hhonours it (key p) Hit (elem_of_keys _ _ Hp)).
  - by apply (Hhonours p (key it) Hp (elem_of_keys _ _ Hit)).
Qed.

(** The sort follows an order that honours the edges and keeps unrelated
    pending items in registration order. *)
Lemma kahn_follows_stable fuel pending order target :
  NoDup (keys pending) →
  kahn fuel pending = Some (Ok order) →
  NoDup target →
  (∀ k, k ∈ target ↔ k ∈ keys pending) →
  (∀ u v, edge pending u v → precedes target u v) →
  stableAmongUnrelated pending target →
  order = target.
Proof.
  revert pending order target. induction fuel as [|fuel IH];
    intros pending order target Hnd Hsort Hnd' Hmem Hedges Hstable.
  { destruct pending; [|done]. injection Hsort as <-.
    destruct target as [|m target]; [done|].
    by destruct (not_elem_of_nil m); apply Hmem; left. }
  destruct (head pending) as [first|] eqn:Hhead.
  2: { destruct pending; [|done]. injection Hsort as <-.
       destruct target as [|m target]; [done|].
       by destruct (not_elem_of_nil m); apply Hmem; left. }
  rewrite (kahn_round _ _ _ Hhead) in Hsort.
  destruct (list_find _ _) as [[i it]|] eqn:Hfind; [|done].
  apply list_find_Some in Hfind as (Hi & Hready & Hfirst).
  assert (Hin : it ∈ pending) by by eapply list_elem_of_lookup_2.
  destruct (kahn fuel (removeKey (key it) pending)) as [[rest|e]|] eqn:Hrest;
    [|done..]. injection Hsort as <-.
  destruct target as [|m target].
  { by destruct (not_elem_of_nil (key it)); apply Hmem, elem_of_keys. }
  assert (Hm : m ∈ keys pending) by (apply Hmem; left).
  apply list_elem_of_fmap in Hm as (first' & -> & Hin').
  assert (Hready' : ready pending first').
  { apply Forall_forall. intros p Hp Hedge.
    apply (precedes_head target (key first') (key p) Hnd'), Hedges.
    by exists p, first'. }
  assert (it = first') as <-.
  { apply list_elem_of_lookup_1 in Hin' as [j Hj].
    destruct (Nat.lt_trichotomy i j) as [Hlt | [-> | Hgt]].
    - exfalso. apply (precedes_head target (key first') (key it) Hnd').
      apply Hstable.
      + split.
        * intros Hpath. apply (precedes_head target (key first') (key it) Hnd').
          by apply (precedes_tc (edge pending) _ Hnd' Hedges).
        * intros [z Hz]%tc_last_step. by apply (ready_no_edge pending it z).
      + exists i, j. unfold keys. rewrite !list_lookup_fmap, Hi, Hj. done.
    - congruence.
    - by destruct (Hfirst j first' Hj Hgt). }
  f_equal. apply NoDup_cons in Hnd' as [Hfresh Hnd'].
  apply (IH (removeKey (key it) pending)); [by apply NoDup_keys_removeKey | done
                                            | done | | |].
  - intros k. rewrite elem_of_keys_removeKey, <- Hmem, elem_of_cons.
    split; [intros Hk; split; [by right | by intros ->] | by intros [[?|?] ?]].
  - intros u v Huv.
    assert (Huv' : edge pending u v).
    { eapply edge_mono; [|exact Huv]. intros p Hp.
      by apply elem_of_removeKey in Hp as [? _]. }
    apply edge_elem_of in Huv as [Hu _].
    apply elem_of_keys_removeKey in Hu as [_ Hu].
    by destruct (precedes_cons_inv _ _ _ _ (Hedges u v Huv')) as [[? _] | ?].
  - intros x y [Hxy Hyx] Hreg.
    destruct (precedes_elem_of _ _ _ Hreg) as [Hx Hy].
    apply elem_of_keys_removeKey in Hx as [_ Hx].
    apply elem_of_keys_removeKey in Hy as [_ Hy].
    rewrite keys_removeKey in Hreg. apply precedes_filter_inv in Hreg.
    destruct (precedes_cons_inv target (key it) x y) as [[? _] | ?]; [|done|done].
    apply Hstable; [|done]. split; intros Hpath.
    + by apply Hxy, tc_edge_removeKey.
    + by apply Hyx, tc_edge_removeKey.
Qed.


(** The stability requirement, where it can be met, is met by one order
    only. *)
Lemma stableOrder_unique items target1 target2 :
  NoDup (keys items) →
  stableOrder items target1 → stableOrder items target2 → target1 = target2.
Proof.
  intros Hnd Hst1 Hst2. pose proof Hst1 as (Hperm1 & Hhonours1 & Hstable1).
  destruct Hst2 as (Hperm2 & Hhonours2 & Hstable2).
  assert (Hnd1 : NoDup target1) by by rewrite Hperm1.
  destruct (sortItems_total items) as [[order|e] Hsort].
  - transitivity order; [symmetry|].
    + apply (kahn_follows_stable _ _ _ _ Hnd Hsort); [done | | |done].
      * intros k. by rewrite Hperm1.
      * by apply honoursConstraints_edges.
    + apply (kahn_follows_stable _ _ _ _ Hnd Hsort); [| | |done].
      * by rewrite Hperm2.
      * intros k. by rewrite Hperm2.
      * by apply honoursConstraints_edges.
  - apply kahn_Err_cycle in Hsort as (k & _ & Hcycle).
    destruct (precedes_irrefl target1 k Hnd1).
    apply (precedes_tc (edge items) _ Hnd1); [|done].
    by apply honoursConstraints_edges.
Qed.


End ResolutionFacts.

(** ** Scenarios of the resolution *)

(** Splits a hypothesis [x ∈ [a; b; ...]] into its cases. *)
Ltac elem_cases H :=
  repeat (apply elem_of_cons in H as [->|H]); [..| by apply elem_of_nil in H].

(** Closes a goal whose hypothesis [H] is a decidable statement that
    evaluates to false. *)
Ltac refute H := exfalso; revert H; compute_done.

Example tasksABC_order : sortItems tasksABC = Some (Ok ["a"; "b"; "c"]).
Proof. reflexivity. Qed.

(** Removing [b] and registering it again puts it last. *)
Example tasksABC_readd :
  ∃ c1 c2 c3,
    createAll tasksABC emptyCollection = Ok c1
    ∧ resolveOrder c1 = Some (Ok ["a"; "b"; "c"], c2)
    ∧ create (item "b" [] []) (remove "b" c2) = Ok c3
    ∧ fst <$> resolveOrder c3 = Some (Ok ["a"; "c"; "b"]).
Proof. do 3 eexists. split_and!; reflexivity. Qed.

Example tasksABC_duplicate :
  ∃ c1, createAll tasksABC emptyCollection = Ok c1
        ∧ create (item "b" [] []) c1 = Err (DuplicateKey "b").
Proof. eexists. split; reflexivity. Qed.

Example firstSecond_order :
  sortItems firstSecond = Some (Ok ["first"; "second"])
  ∧ sortItems secondFirst = Some (Ok ["first"; "second"]).
Proof. split; reflexivity. Qed.

(** A constraint on a key that is not registered is ignored, and counts once
    the key is registered. *)
Example unknown_reference :
  sortItems [item "A" [] ["B"]] = Some (Ok ["A"])
  ∧ sortItems [item "A" [] ["B"]; item "B" [] []] = Some (Ok ["B"; "A"]).
Proof. split; reflexivity. Qed.

Lemma secondFirst_acyclic : acyclic secondFirst.
Proof.
  apply (kahn_Ok_acyclic (length secondFirst) secondFirst ["first"; "second"]);
    [compute_done | reflexivity].
Qed.

Lemma sortItems_acyclic_topological_witness :
  NoDup (keys secondFirst) ∧ acyclic secondFirst
  ∧ ∃ order, sortItems secondFirst = Some (Ok order)
             ∧ order ≡ₚ keys secondFirst
             ∧ NoDup order
             ∧ honoursConstraints secondFirst order.
Proof.
  assert (Hnd : NoDup (keys secondFirst)) by compute_done.
  split_and!; [exact Hnd | exact secondFirst_acyclic |].
  exact (sortItems_acyclic_topological secondFirst Hnd secondFirst_acyclic).
Defined.

Lemma mutualAB_cyclic : cyclic mutualAB.
Proof.
  exists "A". apply (tc_l _ "A" "B" "A"); [|apply tc_once].
  - exists (item "A" [] ["B"]), (item "B" [] ["A"]).
    split_and!; [compute_done | compute_done | done | done | compute_done].
  - exists (item "B" [] ["A"]), (item "A" [] ["B"]).
    split_and!; [compute_done | compute_done | done | done | compute_done].
Qed.

Lemma mutualABCollection_wf : wfCollection mutualABCollection.
Proof. split; [compute_done | done]. Qed.

(** The collection with the cycle arises from the operations. *)
Example mutualABCollection_reached :
  ∃ c1 c2, create (item "A" [] ["B"]) emptyCollection = Ok c1
           ∧ resolveOrder c1 = Some (Ok ["A"], c2)
           ∧ create (item "B" [] ["A"]) c2 = Ok mutualABCollection.
Proof. do 2 eexists. split_and!; reflexivity. Qed.

Lemma resolveOrder_cyclic_fails_witness :
  wfCollection mutualABCollection ∧ cyclic (items mutualABCollection)
  ∧ ∃ k, resolveOrder mutualABCollection
         = Some (Err (CyclicDependency k), mutualABCollection)
         ∧ tc (edge (items mutualABCollection)) k k.
Proof.
  split_and!; [exact mutualABCollection_wf | exact mutualAB_cyclic |].
  exact (resolveOrder_cyclic_fails mutualABCollection
           mutualABCollection_wf mutualAB_cyclic).
Defined.

Example mutualAB_resolution :
  resolveOrder mutualABCollection
  = Some (Err (CyclicDependency "A"), mutualABCollection).
Proof. reflexivity. Qed.

(** The only edge of the scenario runs from [c] to [a]. *)
Lemma lateDependency_edge u v : edge lateDependency u v → u = "c" ∧ v = "a".
Proof.
  intros (p & it & Hp & Hit & <- & <- & Hedge).
  elem_cases Hp; elem_cases Hit; try done; refute Hedge.
Qed.

Lemma lateDependency_tc u v : tc (edge lateDependency) u v → u = "c" ∧ v = "a".
Proof.
  induction 1 as [u v Huv | u v w Huv _ [-> _]].
  - by apply lateDependency_edge.
  - by apply lateDependency_edge in Huv as [_ ?].
Qed.

Lemma lateDependency_unrelated :
  unrelated lateDependency "a" "b" ∧ unrelated lateDependency "b" "c".
Proof.
  split; split; by intros [? ?]%lateDependency_tc.
Qed.


(** No order at all could do better on these three items: honouring
    "a after c" excludes keeping the registration order of both unrelated
    pairs [a, b] and [b, c]. *)
Lemma lateDependency_no_stable_order order :
  NoDup order → honoursConstraints lateDependency order →
  ¬ stableAmongUnrelated lateDependency order.
Proof.
  intros Hnd Hhonours Hstable.
  destruct lateDependency_unrelated as [Hab Hbc].
  assert (Hca : precedes order "c" "a").
  { apply (Hhonours (item "a" [] ["c"]) "c"); compute_done. }
  assert (precedes order "a" "b").
  { apply Hstable; [done|]. exists 0%nat, 1%nat. split_and!; [done | done | lia]. }
  assert (precedes order "b" "c").
  { apply Hstable; [done|]. exists 1%nat, 2%nat. split_and!; [done | done | lia]. }
  apply (precedes_irrefl order "a" Hnd).
  eapply precedes_trans; [done | done |]. by eapply precedes_trans.
Qed.




(** On [a] after [c], [b], [c] no order meets the requirement, and the
    resolved order [b], [c], [a] does not either. *)
Example lateDependency_unsatisfiable :
  ¬ ∃ target, stableOrder lateDependency target.
Proof.
  intros (target & Hperm & Hhonours & Hstable).
  apply (lateDependency_no_stable_order target); [|done|done].
  rewrite Hperm. compute_done.
Qed.

(** ** Scenarios of the render gate *)

(** In an idle 'manual' context [invalidate()] raises [frameInvalidated] and
    nothing renders; in an idle 'on-demand' context [advance()] raises
    [advance] and nothing renders. *)
Lemma invalidate_advance_mode_isolated_witness :
  (eval shouldRender (idleState Manual) = false
   ∧ frameInvalidated (internalCtx (idleState Manual)) = false
   ∧ frameInvalidated (internalCtx (exec ctx.invalidate (idleState Manual))) = true
   ∧ advance (internalCtx (exec ctx.invalidate (idleState Manual))) = false
   ∧ eval shouldRender (exec ctx.invalidate (idleState Manual)) = false)
  ∧ (eval shouldRender (idleState OnDemand) = false
     ∧ advance (internalCtx (idleState OnDemand)) = false
     ∧ advance (internalCtx (exec ctx.advance (idleState OnDemand))) = true
     ∧ frameInvalidated (internalCtx (exec ctx.advance (idleState OnDemand))) = false
     ∧ eval shouldRender (exec ctx.advance (idleState OnDemand)) = false).
Proof.
  destruct (invalidate_advance_mode_isolated (idleState Manual))
    as (Hinvalidate & _ & Hmanual & _).
  destruct (invalidate_advance_mode_isolated (idleState OnDemand))
    as (_ & Hadvance & _ & Hdemand).
  split; split_and!.
  - reflexivity.
  - reflexivity.
  - by rewrite Hinvalidate.
  - by rewrite Hinvalidate.
  - apply Hmanual; reflexivity.
  - reflexivity.
  - reflexivity.
  - by rewrite Hadvance.
  - by rewrite Hadvance.
  - apply Hdemand; reflexivity.
Defined.

Lemma gate_invokes_runTasks_iff_shouldRender_witness :
  renderMode (initialState Manual tt) = Manual
  ∧ advance (internalCtx (initialState Manual tt)) = false
  ∧ invocations (exec (renderStage_callback 16 (counted ctx.invalidate))
                   (withCount (initialState Manual tt) 0)) = 0%nat.
Proof.
  split_and!; [reflexivity | reflexivity |].
  pose proof (gate_invokes_runTasks_iff_shouldRender
                16 ctx.invalidate (initialState Manual tt)) as Hgate.
  cbv zeta in Hgate. destruct Hgate as (_ & _ & Hmanual & _).
  apply Hmanual; reflexivity.
Defined.

Lemma shouldRender_pure_witness :
  renderInputs (initialState Manual 2%nat) = renderInputs (initialState Manual 1%nat)
  ∧ eval shouldRender (initialState Manual 2%nat)
    = eval shouldRender (initialState Manual 1%nat).
Proof.
  split; [reflexivity|].
  destruct (shouldRender_pure (initialState Manual 1%nat)) as (_ & _ & Hsame).
  apply Hsame. reflexivity.
Defined.

Lemma flags_cleared_only_by_resetFrameInvalidation_witness :
  frameInvalidated (internalCtx (initialState Manual tt)) = true
  ∧ frameInvalidated
      (internalCtx (exec (flagClient CallAdvance) (initialState Manual tt))) = true.
Proof.
  split; [reflexivity|].
  destruct (flags_cleared_only_by_resetFrameInvalidation (initialState Manual tt))
    as (_ & Hclients & _).
  destruct (Hclients CallAdvance) as (Hkept & _). apply Hkept. reflexivity.
Defined.

Lemma holds_survive_resetFrameInvalidation_witness :
  renderMode heldState = OnDemand
  ∧ autoInvalidations (internalCtx heldState) ≠ ∅
  ∧ eval shouldRender (exec resetFrameInvalidation heldState) = true.
Proof.
  assert (Hholds : autoInvalidations (internalCtx heldState) ≠ ∅) by compute_done.
  split_and!; [reflexivity | exact Hholds |].
  destruct (holds_survive_resetFrameInvalidation heldState) as (_ & Hrender).
  apply Hrender; [reflexivity | exact Hholds].
Defined.

Example gate_manual_mode :
  invocations (exec (renderStage_callback 16 (counted ctx.invalidate))
                 (withCount (initialState Manual tt) 0)) = 0%nat
  ∧ invocations (exec (renderStage_callback 16 (counted ctx.invalidate))
                   (withCount (exec ctx.advance (initialState Manual tt)) 0)) = 1%nat.
Proof. split; reflexivity. Qed.

Example disposal_scenario :
  let s := exec (forEach disposalCall
                   [AddObjects [1; 1; 2]%positive; RemoveObjects [2; 2; 3]%positive])
             (initialState OnDemand tt) in
  map_to_list (disposableObjects (internalCtx s)) = [(2%positive, 0); (1%positive, 2)]
  ∧ map_to_list (disposableObjects (internalCtx (exec (dispose false) s)))
    = [(1%positive, 2)].
Proof. split; reflexivity. Qed.

(** * Further properties of the context *)

(** ** Reference counts as functions of the call *)

Lemma occurrences_cons o x objects :
  occurrences o (x :: objects)
  = ((if decide (x = o) then 1 else 0) + occurrences o objects)%nat.
Proof. unfold occurrences. rewrite filter_cons. by case_decide. Qed.

Lemma occurrences_zero o objects : occurrences o objects = 0%nat ↔ o ∉ objects.
Proof.
  unfold occurrences. rewrite length_zero_iff_nil. split.
  - intros Hnil Hin.
    assert (o ∈ filter (λ x, x = o) objects) as Hin'
      by by apply list_elem_of_filter.
    rewrite Hnil in Hin'. by apply elem_of_nil in Hin'.
  - intros Hnotin. destruct (filter _ objects) as [|x l] eqn:Hf; [done|].
    assert (x ∈ filter (λ x, x = o) objects) as [-> Hin]%list_elem_of_filter
      by (rewrite Hf; left). done.
Qed.

(** The count that one round of [addDisposableObjects] stores. *)
Lemma add_round_value (v : option Z) :
  (if truthy v then default 0 v + 1 else 1) = default 0 v + 1.
Proof.
  destruct v as [n|]; simpl; [|done].
  destruct (n =? 0) eqn:Hn; simpl; [|done]. lia.
Qed.

Lemma addDisposableObjects_lookup {W} objects (s : State W) o :
  disposableObjects (internalCtx (exec (addDisposableObjects objects) s)) !! o =
  if decide (o ∈ objects)
  then Some (default 0 (disposableObjects (internalCtx s) !! o)
             + Z.of_nat (occurrences o objects))
  else disposableObjects (internalCtx s) !! o.
Proof.
  revert s. induction objects as [|obj objects IH]; intros s.
  { rewrite decide_False; [done | apply not_elem_of_nil]. }
  unfold addDisposableObjects. simpl forEach. rewrite exec_bind.
  change (forEach _ objects) with (addDisposableObjects (W:=W) objects).
  rewrite IH, add_round, exec_modifyCtx. simpl.
  rewrite add_round_value, occurrences_cons.
  destruct (decide (obj = o)) as [->|Hne].
  - rewrite lookup_insert_eq. rewrite (decide_True (P := o ∈ o :: objects)) by left.
    destruct (decide (o ∈ objects)) as [Hin|Hnotin]; simpl.
    + f_equal; lia.
    + apply occurrences_zero in Hnotin. rewrite Hnotin. f_equal; lia.
  - rewrite lookup_insert_ne by done.
    destruct (decide (o ∈ objects)) as [Hin|Hnotin].
    + rewrite decide_True by (by right). done.
    + rewrite decide_False; [done|]. intros [?|?]%elem_of_cons; congruence.
Qed.

(** X1: while the counts stay within the range in which [+ 1] is exact,
    [addDisposableObjects] adds to the count of every object the number of
    times it occurs in the array, starting from 0 for an object without an
    entry, and touches nothing else of the state. *)
Theorem addDisposableObjects_counts {W} objects (s : State W) :
  countsExact (disposableObjects (internalCtx s)) objects →
  let s' := exec (addDisposableObjects objects) s in
  (∀ o, disposableObjects (internalCtx s') !! o =
        if decide (o ∈ objects)
        then Some (default 0 (disposableObjects (internalCtx s) !! o)
                   + Z.of_nat (occurrences o objects))
        else disposableObjects (internalCtx s) !! o)
  ∧ shouldDispose (internalCtx s') = shouldDispose (internalCtx s)
  ∧ renderInputs s' = renderInputs s
  ∧ world s' = world s.
Proof.
  intros _.
  destruct (addDisposableObjects_keepsFlags objects s) as ((Hm & Hw & Hf) & Hsd).
  split_and!; [|done| |done].
  - intros o. apply addDisposableObjects_lookup.
  - unfold renderInputs. by rewrite Hm, Hf.
Qed.

Lemma decrementBy_zero n : decrementBy 0 n = n.
Proof. unfold decrementBy. lia. Qed.

Lemma decrementBy_succ k n :
  decrementBy (S k) n = decrementBy k (if decide (0 < n) then n - 1 else n).
Proof. unfold decrementBy. case_decide; lia. Qed.

Lemma remove_loop_lookup {W} objects (s : State W) o :
  disposableObjects (internalCtx (exec (forEach (λ obj,
      currentValue ← mapGet obj;
      if truthy currentValue && (0 <? default 0 currentValue)
      then mapSet obj (default 0 currentValue - 1)
      else ret tt) objects) s)) !! o
  = decrementBy (occurrences o objects) <$> disposableObjects (internalCtx s) !! o.
Proof.
  revert s. induction objects as [|obj objects IH]; intros s.
  { simpl. unfold occurrences. simpl.
    destruct (_ !! o) as [n|]; simpl; [|done]. by rewrite decrementBy_zero. }
  simpl forEach. rewrite exec_bind, IH, remove_round, occurrences_cons. simpl.
  destruct (decide (obj = o)) as [->|Hne].
  - destruct (disposableObjects (internalCtx s) !! o) as [n|] eqn:Hn.
    + simpl. rewrite decrementBy_succ. case_decide.
      * simpl. by rewrite lookup_insert_eq.
      * by rewrite Hn.
    + by rewrite Hn.
  - simpl. destruct (disposableObjects (internalCtx s) !! obj) as [n|] eqn:Hn; [|done].
    case_decide; [|done]. simpl. by rewrite lookup_insert_ne.
Qed.

Lemma removeDisposableObjects_lookup {W} objects (s : State W) o :
  disposableObjects (internalCtx (exec (removeDisposableObjects objects) s)) !! o
  = decrementBy (occurrences o objects) <$> disposableObjects (internalCtx s) !! o.
Proof.
  unfold removeDisposableObjects. case_bool_decide as Hlen.
  - destruct objects; [|done]. simpl. unfold occurrences. simpl.
    destruct (_ !! o) as [n|]; simpl; [|done]. by rewrite decrementBy_zero.
  - rewrite exec_bind, exec_modifyCtx. simpl. apply remove_loop_lookup.
Qed.

(** X2: [removeDisposableObjects] lowers the count of every object by the
    number of times it occurs in the array, stopping at zero; it never
    creates or deletes an entry, and it raises [shouldDispose] exactly when
    the array is not empty, whether or not a count changed. *)
Theorem removeDisposableObjects_counts {W} objects (s : State W) :
  let s' := exec (removeDisposableObjects objects) s in
  (∀ o, disposableObjects (internalCtx s') !! o
        = decrementBy (occurrences o objects)
            <$> disposableObjects (internalCtx s) !! o)
  ∧ shouldDispose (internalCtx s')
    = (if decide (objects = []) then shouldDispose (internalCtx s) else true)
  ∧ renderInputs s' = renderInputs s
  ∧ world s' = world s.
Proof.
  destruct (removeDisposableObjects_spec objects s) as ((Hm & Hw & Hf) & Hsd & _).
  split_and!; [| |by unfold renderInputs; rewrite Hm, Hf|done].
  - intros o. apply removeDisposableObjects_lookup.
  - rewrite Hsd. destruct objects; by simpl.
Qed.

Lemma mount_unmount_lookup {W} objects (s : State W) o :
  countsNonNegative (internalCtx s) →
  disposableObjects
    (internalCtx (exec (removeDisposableObjects objects)
                    (exec (addDisposableObjects objects) s))) !! o =
  if decide (o ∈ objects)
  then Some (default 0 (disposableObjects (internalCtx s) !! o))
  else disposableObjects (internalCtx s) !! o.
Proof.
  intros Hnn. rewrite removeDisposableObjects_lookup, addDisposableObjects_lookup.
  case_decide as Hin.
  - simpl. f_equal. unfold decrementBy.
    destruct (disposableObjects (internalCtx s) !! o) as [n|] eqn:Hn; simpl; [|lia].
    specialize (Hnn o n Hn). simpl in Hnn. lia.
  - apply occurrences_zero in Hin. rewrite Hin.
    destruct (_ !! o) as [n|]; simpl; [|done]. by rewrite decrementBy_zero.
Qed.

(** X3: while the counts stay within the range in which [+ 1] is exact,
    adding an array of objects and then removing the same array gives every
    listed object its old count back, duplicates included; an object that
    had no entry is left with an entry of count 0. *)
Theorem mount_unmount_restores_counts {W} objects (s : State W) :
  countsNonNegative (internalCtx s) →
  countsExact (disposableObjects (internalCtx s)) objects →
  ∀ o,
    disposableObjects
      (internalCtx (exec (removeDisposableObjects objects)
                      (exec (addDisposableObjects objects) s))) !! o =
    if decide (o ∈ objects)
    then Some (default 0 (disposableObjects (internalCtx s) !! o))
    else disposableObjects (internalCtx s) !! o.
Proof. intros Hnn _ o. by apply mount_unmount_lookup. Qed.

(** X4: when every tracked object is mounted (all counts positive) and the
    counts stay within the range in which [+ 1] is exact, adding an array of
    objects, removing the same array and letting [dispose] run brings the
    map back to what it was: the objects that were only mounted in between
    are the ones deleted. *)
Theorem mount_unmount_dispose_roundtrip {W} objects (s : State W) :
  map_Forall (λ _ n, 0 < n) (disposableObjects (internalCtx s)) →
  countsExact (disposableObjects (internalCtx s)) objects →
  disposableObjects
    (internalCtx (exec (dispose false)
                    (exec (removeDisposableObjects objects)
                       (exec (addDisposableObjects objects) s))))
  = disposableObjects (internalCtx s).
Proof.
  intros Hpos _.
  assert (Hnn : countsNonNegative (internalCtx s)).
  { intros o n Hn. specialize (Hpos o n Hn). simpl in *. lia. }
  set (s2 := exec (removeDisposableObjects objects)
               (exec (addDisposableObjects objects) s)).
  assert (Hlookup := λ o, mount_unmount_lookup objects s o Hnn). fold s2 in Hlookup.
  assert (Hkeep : filter (λ kv, kv.2 ≠ 0) (disposableObjects (internalCtx s2))
                  = disposableObjects (internalCtx s)).
  { apply map_eq. intros o. apply option_eq. intros n.
    rewrite map_lookup_filter_Some, Hlookup. simpl. case_decide as Hin.
    - destruct (disposableObjects (internalCtx s) !! o) as [k|] eqn:Hk; simpl.
      + specialize (Hpos o k Hk). simpl in Hpos. split; [by intros [? _] |].
        intros [= <-]. split; [done | lia].
      + split; [by intros [[= <-] ?] | done].
    - split; [by intros [? _] |]. intros Hn. split; [done|].
      specialize (Hpos o n Hn). simpl in Hpos. lia. }
  destruct (shouldDispose (internalCtx s2)) eqn:Hsd.
  - destruct (dispose_runs false s2) as (_ & _ & ->); [by left|].
    rewrite <- Hkeep. apply map_filter_ext. intros o n _. simpl.
    rewrite orb_false_r. lia.
  - rewrite dispose_skips by done.
    destruct (removeDisposableObjects_spec objects
                (exec (addDisposableObjects objects) s)) as (_ & Hsd' & _).
    fold s2 in Hsd'. rewrite Hsd in Hsd'.
    destruct objects as [|obj objects]; [done | by simpl in Hsd'].
Qed.

(** X5: right after a [dispose], forced or not, a [dispose()] without force
    changes nothing. *)
Theorem dispose_then_dispose {W} (force : bool) (s : State W) :
  exec (dispose false) (exec (dispose force) s) = exec (dispose force) s.
Proof.
  apply dispose_skips.
  assert (Hcases : (shouldDispose (internalCtx s) = true ∨ force = true)
                   ∨ (shouldDispose (internalCtx s) = false ∧ force = false)).
  { destruct (shouldDispose _), force; auto. }
  destruct Hcases as [Hrun | [Hsd ->]].
  - by destruct (dispose_runs force s Hrun) as (_ & ? & _).
  - by rewrite dispose_skips.
Qed.

(** ** The flags across a frame *)

(** X6: right after [resetFrameInvalidation], [shouldRender()] is true only
    in 'always' mode, or in 'on-demand' mode while an invalidation hold is
    active; 'manual' mode waits for a new [advance()]. *)
Theorem shouldRender_after_reset {W} (s : State W) :
  eval shouldRender (exec resetFrameInvalidation s) = true ↔
    renderMode s = Always
    ∨ (renderMode s = OnDemand ∧ autoInvalidations (internalCtx s) ≠ ∅).
Proof.
  unfold eval. rewrite shouldRender_run. simpl.
  destruct (renderMode s).
  - split; [by left | done].
  - rewrite bool_decide_eq_true, holds_nonempty. split.
    + intros Hholds. by right.
    + by intros [? | [_ ?]].
  - split; [done | by intros [? | [? _]]].
Qed.

(** X7: [invalidate()] makes [shouldRender()] true in every mode but
    'manual', where only a pending advance does; [advance()] makes it true in
    every mode but 'on-demand', where only an invalidated frame or an active
    hold does. *)
Theorem invalidate_advance_effect {W} (s : State W) :
  (eval shouldRender (exec ctx.invalidate s) = true ↔
     renderMode s ≠ Manual ∨ advance (internalCtx s) = true)
  ∧ (eval shouldRender (exec ctx.advance s) = true ↔
       renderMode s ≠ OnDemand
       ∨ frameInvalidated (internalCtx s) = true
       ∨ autoInvalidations (internalCtx s) ≠ ∅).
Proof.
  unfold eval. rewrite !shouldRender_run. simpl. split.
  - destruct (renderMode s); simpl.
    + split; [by left | done].
    + split; [by left | done].
    + split; [by right | by intros [? | ?]].
  - destruct (renderMode s); simpl.
    + split; [by left | done].
    + rewrite orb_true_iff, bool_decide_eq_true, holds_nonempty.
      split; [by right | by intros [? | ?]].
    + split; [by left | done].
Qed.

Lemma exec_flagRaise_reset {W} (c : FlagRaise) (s : State W) :
  exec resetFrameInvalidation (exec (flagRaise c) s)
  = exec resetFrameInvalidation s.
Proof. by destruct c. Qed.

Lemma reset_after_raises {W} (calls : list FlagRaise) (s : State W) :
  exec resetFrameInvalidation (exec (forEach flagRaise calls) s)
  = exec resetFrameInvalidation s.
Proof.
  revert s. induction calls as [|c calls IH]; intros s; [done|].
  simpl forEach. rewrite exec_bind, IH. apply exec_flagRaise_reset.
Qed.

(** X8: however often [invalidate()] and [advance()] were called during a
    frame, one [resetFrameInvalidation] leaves the state that a reset
    without those calls leaves; a second reset changes nothing. *)
Theorem reset_absorbs_raises {W} (calls : list FlagRaise) (s : State W) :
  exec resetFrameInvalidation (exec (forEach flagRaise calls) s)
  = exec resetFrameInvalidation s
  ∧ exec resetFrameInvalidation (exec resetFrameInvalidation s)
    = exec resetFrameInvalidation s.
Proof. split; [apply reset_after_raises | reflexivity]. Qed.

(** X9: the disposal bookkeeping and the render decision do not interfere:
    no sequence of [addDisposableObjects], [removeDisposableObjects] and
    [dispose] calls changes what [shouldRender()] returns, and no sequence
    of [invalidate()] and [advance()] calls followed by a reset changes the
    counts or [shouldDispose]. *)
Theorem disposal_and_flags_independent {W} (s : State W) :
  (∀ calls : list DisposalCall,
     eval shouldRender (exec (forEach disposalCall calls) s)
     = eval shouldRender s)
  ∧ (∀ calls : list FlagRaise,
       let s' := exec resetFrameInvalidation (exec (forEach flagRaise calls) s) in
       disposableObjects (internalCtx s') = disposableObjects (internalCtx s)
       ∧ shouldDispose (internalCtx s') = shouldDispose (internalCtx s)).
Proof.
  split.
  - intros calls.
    assert (Hkeeps : keepsFlags s (exec (forEach disposalCall calls) s)).
    { apply (forEach_invariant (keepsFlags s)); [|reflexivity].
      intros c t Ht. etrans; [exact Ht | apply disposalCall_keepsFlags]. }
    destruct Hkeeps as (Hm & _ & Hf). unfold eval. rewrite !shouldRender_run.
    simpl. unfold flags in Hf. injection Hf as Hf1 Hf2 Hf3.
    by rewrite Hm, Hf1, Hf2, Hf3.
  - intros calls. cbv zeta. by rewrite reset_after_raises.
Qed.

(** ** Collecting disposable objects *)

(** Induction over an object and the objects among its property values. *)
Lemma JsObj_props_ind (P : JsObj → Prop) :
  (∀ o, Forall (λ kv, ∀ c, kv.2 = VObject c → P c) (objEntries o) → P o) →
  ∀ o, P o.
Proof.
  intros step. fix IH 1. intros [r d t es]. apply step. simpl.
  revert es. fix IHes 1. intros [|[k v] es].
  - constructor.
  - constructor; [|apply IHes]. simpl. destruct v as [| |c'].
    + intros c Heq. discriminate Heq.
    + intros c Heq. discriminate Heq.
    + intros c Heq. injection Heq as <-. apply IH.
Qed.

Lemma collectFrom_eq object disposables :
  collectFrom object disposables =
  fold_left entryStep (objEntries object)
    (if isDisposable object then disposables ++ [object] else disposables).
Proof.
  destruct object as [r d t es]. simpl.
  generalize (if isDisposable (mkObj r d t es)
              then disposables ++ [mkObj r d t es] else disposables).
  induction es as [|[k v] es IH]; intros acc; [done|]. simpl. apply IH.
Qed.

Lemma entryStep_app acc kv :
  (∀ c, kv.2 = VObject c → ∀ a, collectFrom c a = a ++ collectFrom c []) →
  entryStep acc kv = acc ++ collectedThrough kv.
Proof.
  intros Hkv. unfold entryStep, collectedThrough.
  destruct (skippedKey kv.1); [by rewrite app_nil_r|].
  destruct kv.2 as [| |c] eqn:Hv; [by rewrite app_nil_r..|].
  destruct (hasDispose c); [by apply Hkv | by rewrite app_nil_r].
Qed.

Lemma fold_entryStep_app es acc :
  Forall (λ kv, ∀ c, kv.2 = VObject c →
                     ∀ a, collectFrom c a = a ++ collectFrom c []) es →
  fold_left entryStep es acc = acc ++ concat (collectedThrough <$> es).
Proof.
  intros Hes. revert acc. induction Hes as [|kv es Hkv _ IH]; intros acc; simpl.
  - by rewrite app_nil_r.
  - by rewrite IH, (entryStep_app _ _ Hkv), <- app_assoc.
Qed.

Lemma collectFrom_app object :
  ∀ disposables,
    collectFrom object disposables = disposables ++ collectFrom object [].
Proof.
  induction object as [object IH] using JsObj_props_ind. intros disposables.
  rewrite !collectFrom_eq, !fold_entryStep_app by done.
  destruct (isDisposable object); simpl; [by rewrite <- app_assoc | done].
Qed.

Lemma collectFrom_flat object :
  collectFrom object [] =
  (if isDisposable object then [object] else [])
  ++ concat (collectedThrough <$> objEntries object).
Proof.
  rewrite collectFrom_eq, fold_entryStep_app; [done|].
  apply Forall_forall. intros kv _ c _ a. apply collectFrom_app.
Qed.

(** X10: [collectDisposableObjects] only appends to the array it is handed,
    and what it appends is what it collects into a fresh array; without an
    object it returns the array as it is. *)
Theorem collectDisposableObjects_appends object objects :
  collectDisposableObjects object (Some objects)
  = objects ++ collectDisposableObjects object None
  ∧ collectDisposableObjects None (Some objects) = objects.
Proof.
  split; [|done]. destruct object as [object|]; simpl.
  - apply collectFrom_app.
  - by rewrite app_nil_r.
Qed.

(** X11: the collected array is a pre-order walk: first the object itself
    when it has a [dispose] function and is not a Scene, then, property by
    property in the order of [Object.entries], what is collected from each
    property that is followed. *)
Theorem collectDisposableObjects_preorder object :
  collectDisposableObjects (Some object) None =
  (if isDisposable object then [object] else [])
  ++ concat ((λ kv, if skippedKey kv.1 then []
                    else match kv.2 with
                         | VObject value =>
                           if hasDispose value
                           then collectDisposableObjects (Some value) None
                           else []
                         | VNull | VNotObject => []
                         end) <$> objEntries object).
Proof. apply collectFrom_flat. Qed.

Lemma elem_of_concat {A} (x : A) (ls : list (list A)) :
  x ∈ concat ls ↔ ∃ l, x ∈ l ∧ l ∈ ls.
Proof.
  induction ls as [|l0 ls IH]; simpl.
  - split; [by intros ?%elem_of_nil | by intros (l & _ & ?%elem_of_nil)].
  - rewrite elem_of_app, IH. split.
    + intros [Hx | (l & Hx & Hl)]; [exists l0 | exists l]; split; try done;
        [left | by right].
    + intros (l & Hx & [-> | Hl]%elem_of_cons); [by left | right; by exists l].
Qed.

Lemma elem_of_collectFrom object x :
  x ∈ collectFrom object [] ↔ rtc follows object x ∧ isDisposable x = true.
Proof.
  revert x. induction object as [object IH] using JsObj_props_ind. intros x.
  rewrite collectFrom_flat, elem_of_app, elem_of_concat.
  rewrite Forall_forall in IH. split.
  - intros [Hown | (l & Hx & [kv [-> Hkv]]%list_elem_of_fmap)].
    + destruct (isDisposable object) eqn:Hd; [|by apply elem_of_nil in Hown].
      apply list_elem_of_singleton in Hown as ->. done.
    + unfold collectedThrough in Hx.
      destruct (skippedKey kv.1) eqn:Hskip; [by apply elem_of_nil in Hx|].
      destruct kv as [k v]. simpl in *.
      destruct v as [| |c]; [by apply elem_of_nil in Hx..|].
      destruct (hasDispose c) eqn:Hc; [|by apply elem_of_nil in Hx].
      apply (IH _ Hkv c eq_refl) in Hx as [Hpath Hd]. split; [|done].
      eapply rtc_l; [|exact Hpath]. by exists k.
  - intros [Hpath Hd]. destruct Hpath as [|o c x (k & Hk & Hskip & Hc) Hpath].
    + left. rewrite Hd. by apply list_elem_of_singleton.
    + right. exists (collectedThrough (k, VObject c)). split.
      * unfold collectedThrough. simpl. rewrite Hskip, Hc.
        apply (IH _ Hk c eq_refl). done.
      * apply list_elem_of_fmap. by exists (k, VObject c).
Qed.

(** X12: an object is collected exactly when it has a [dispose] function, is
    not a Scene, and is the object itself or is reached from it through
    properties other than [parent] and [children] whose values all have a
    truthy [dispose]. *)
Theorem collectDisposableObjects_reaches object x :
  x ∈ collectDisposableObjects (Some object) None
  ↔ rtc follows object x ∧ isDisposable x = true.
Proof. apply elem_of_collectFrom. Qed.

Example collect_mesh :
  collectDisposableObjects (Some meshObj) None
  = [geometryObj; materialObj; textureObj].
Proof. reflexivity. Qed.

(** A Scene is not collected, what its properties hold is. *)
Example collect_scene :
  collectDisposableObjects (Some sceneObj) (Some [geometryObj])
  = [geometryObj; textureObj].
Proof. reflexivity. Qed.

(** ** The auto render task behind the gate *)

(** X13: with the auto render task as the work of the render stage, one run
    of the gate calls the renderer once when [shouldRender()] is true and no
    legacy render order is registered, and not at all otherwise. *)
Theorem autoRender_renders_iff {W D} (d : D) (useRenderOrders : list Z)
    (render : M W unit) (s : State W) :
  invocations
    (exec (renderStage_callback d
             (autoRenderTask_callback useRenderOrders (counted render) d))
       (withCount s 0))
  = (if eval shouldRender s && bool_decide (useRenderOrders = []) then 1 else 0)%nat.
Proof.
  unfold exec. rewrite renderStage_callback_run, shouldRender_withCount.
  destruct (eval shouldRender s); simpl; [|done].
  unfold autoRenderTask_callback. destruct useRenderOrders as [|n l]; simpl; done.
Qed.

(** ** Scenarios of the further properties *)

Lemma mountedState_positive :
  map_Forall (λ _ n, 0 < n) (disposableObjects (internalCtx mountedState)).
Proof. apply map_Forall_singleton. simpl. lia. Qed.

Lemma mountedState_nonneg : countsNonNegative (internalCtx mountedState).
Proof. apply map_Forall_singleton. simpl. lia. Qed.

Lemma occurrences_le_length o objects :
  (occurrences o objects ≤ length objects)%nat.
Proof. apply length_filter. Qed.

Lemma mountedState_exact :
  countsExact (disposableObjects (internalCtx mountedState)) [1; 3; 3]%positive.
Proof.
  intros o. pose proof (occurrences_le_length o [1; 3; 3]%positive) as Hocc.
  simpl in Hocc. unfold maxExactCount. simpl.
  destruct (decide (o = 1%positive)) as [->|Hne].
  - rewrite lookup_singleton_eq. simpl. lia.
  - rewrite lookup_singleton_ne by done. simpl. lia.
Qed.

Lemma addDisposableObjects_counts_witness :
  countsExact (disposableObjects (internalCtx mountedState)) [1; 3; 3]%positive
  ∧ disposableObjects
      (internalCtx (exec (addDisposableObjects [1; 3; 3]%positive) mountedState))
    !! 1%positive = Some 3
  ∧ disposableObjects
      (internalCtx (exec (addDisposableObjects [1; 3; 3]%positive) mountedState))
    !! 3%positive = Some 2.
Proof.
  split; [exact mountedState_exact|].
  destruct (addDisposableObjects_counts [1; 3; 3]%positive mountedState
              mountedState_exact) as (Hcounts & _).
  split; [exact (Hcounts 1%positive) | exact (Hcounts 3%positive)].
Defined.

Lemma mount_unmount_restores_counts_witness :
  countsNonNegative (internalCtx mountedState)
  ∧ countsExact (disposableObjects (internalCtx mountedState)) [1; 3; 3]%positive
  ∧ disposableObjects
      (internalCtx (exec (removeDisposableObjects [1; 3; 3]%positive)
                      (exec (addDisposableObjects [1; 3; 3]%positive) mountedState)))
    !! 3%positive = Some 0.
Proof.
  split_and!; [exact mountedState_nonneg | exact mountedState_exact |].
  exact (mount_unmount_restores_counts [1; 3; 3]%positive mountedState
           mountedState_nonneg mountedState_exact 3%positive).
Defined.

Lemma mount_unmount_dispose_roundtrip_witness :
  map_Forall (λ _ n, 0 < n) (disposableObjects (internalCtx mountedState))
  ∧ countsExact (disposableObjects (internalCtx mountedState)) [1; 3; 3]%positive
  ∧ disposableObjects
      (internalCtx (exec (dispose false)
                      (exec (removeDisposableObjects [1; 3; 3]%positive)
                         (exec (addDisposableObjects [1; 3; 3]%positive)
                            mountedState))))
    = disposableObjects (internalCtx mountedState).
Proof.
  split_and!; [exact mountedState_positive | exact mountedState_exact |].
  exact (mount_unmount_dispose_roundtrip [1; 3; 3]%positive mountedState
           mountedState_positive mountedState_exact).
Defined.

(** * Colliders from the meshes of an object *)

Module CollidersFacts.
Import Colliders.

Section Facts.
Context {num quat body : Type}.
Variables (add sub mul : num → num → num) (half : num → num)
          (max : num → num → num) (zero : num).
Variables (identity : quat) (invert : quat → quat) (premultiply : quat → quat → quat).
Variables (float32Array uint32Array : list num → list num).
Variable hullFound : list num → bool.
Variable trimeshAccepted : list num → list num → bool.

Abbreviation Object3D := (@Object3D num quat).
Abbreviation Run := (@Run num quat body).
Abbreviation Collider := (@Collider num quat body).
Abbreviation describe :=
  (describe sub mul half max float32Array uint32Array hullFound).
Abbreviation visit :=
  (visit add sub mul half max premultiply float32Array uint32Array hullFound
     trimeshAccepted).
Abbreviation createCollidersFromChildren :=
  (createCollidersFromChildren add sub mul half max zero identity invert
     premultiply float32Array uint32Array hullFound trimeshAccepted).
Abbreviation describable := (describable float32Array hullFound).
Abbreviation creatable :=
  (creatable float32Array uint32Array hullFound trimeshAccepted).
Abbreviation created := (created trimeshAccepted).
Abbreviation translationFor := (translationFor add sub).
Abbreviation rigidBodyPosition := (rigidBodyPosition zero).

Implicit Types (nodes : list Object3D) (child object : Object3D) (r : Run)
  (ty : AutoCollidersShapes) (rb : option body).

Lemma describe_Some ty g scale size0 offset0 :
  (ty = convexHull → hullFound (float32Array (position g)) = true) →
  (ty = trimesh → trimeshAccepted (float32Array (position g))
                    (uint32Array (default [] (index g))) = true) →
  ∃ sh size1 offset1,
    describe ty g scale size0 offset0 = (Some sh, size1, offset1)
    ∧ shapeKind sh = ty
    ∧ created sh = true.
Proof.
  intros Hhull Hmesh. destruct ty; simpl; try by do 3 eexists.
  - do 3 eexists. split_and!; [done | done |]. simpl. by apply Hmesh.
  - rewrite Hhull by done. by do 3 eexists.
Qed.

Lemma visitAll_app (f : Run → Object3D → Run + Run) nodes1 nodes2 r :
  visitAll f (nodes1 ++ nodes2) r =
  match visitAll f nodes1 r with
  | inl r1 => visitAll f nodes2 r1
  | inr e => inr e
  end.
Proof.
  revert r. induction nodes1 as [|child nodes1 IH]; intros r; simpl; [done|].
  destruct (f r child); [apply IH | done].
Qed.

Lemma visitAll_creatable ty rb pos q nodes r :
  Forall (creatable ty) nodes →
  ∃ r' new,
    visitAll (visit ty rb pos q) nodes r = inl r'
    ∧ colliders r' = colliders r ++ new
    ∧ length new = length (filter (λ child, is_Some (geometry child)) nodes)
    ∧ Forall (ofThisCall ty rb) new.
Proof.
  intros Hnodes. revert r.
  induction Hnodes as [|child nodes [Hchild Hmesh] _ IH]; intros r; simpl.
  { exists r, []. by rewrite app_nil_r. }
  unfold Colliders.visit at 1. rewrite filter_cons.
  destruct (geometry child) as [g|] eqn:Hg.
  - destruct (describe_Some ty g (getWorldScale child) (size (scratch r))
                (offset (scratch r)))
      as (sh & size1 & offset1 & Hdesc & Hkind & Hcreated).
    { intros Hty. by apply (Hchild g). }
    { intros Hty. by apply (Hmesh g). }
    rewrite Hdesc, Hcreated.
    match goal with |- context [visitAll _ nodes ?r1] =>
      destruct (IH r1) as (r' & new & Hrun & Hcols & Hlen & Hgood) end.
    simpl in Hcols. rewrite <- app_assoc in Hcols.
    eexists r', (_ :: new). rewrite decide_True by done.
    split_and!; [done | exact Hcols | simpl; by rewrite Hlen |].
    constructor; [done | exact Hgood].
  - destruct (IH r) as (r' & new & Hrun & Hcols & Hlen & Hgood).
    exists r', new. rewrite decide_False by (by intros [? ?]).
    by split_and!.
Qed.

Lemma describable_creatable_convexHull nodes :
  Forall (describable convexHull) nodes → Forall (creatable convexHull) nodes.
Proof.
  intros Hnodes. eapply Forall_impl; [exact Hnodes|].
  intros child Hchild. split; [done|]. intros g Hty. discriminate Hty.
Qed.

(** X14: when every description exists and is accepted by the world, the
    call returns one collider per mesh among the object and its descendants,
    in traversal order, and none for an object that is not a mesh; every
    collider is attached to the rigid body of the call, has the shape asked
    for and collision events on. *)
Theorem one_collider_per_mesh object ty rb parent scratch0 :
  Forall (creatable ty) (traverse object) →
  ∃ r, createCollidersFromChildren object ty rb parent scratch0 = inl r
       ∧ length (colliders r) = length (meshes object)
       ∧ Forall (ofThisCall ty rb) (colliders r).
Proof.
  intros Hok. unfold Colliders.createCollidersFromChildren.
  match goal with |- context [visitAll ?f ?nodes ?r0] =>
    destruct (visitAll_creatable ty rb
                (rigidBodyPosition parent)
                (invert (match parent with
                         | Some p => getWorldQuaternion p
                         | None => identity
                         end)) nodes r0 Hok)
      as (r & new & Hrun & Hcols & Hlen & Hgood) end.
  exists r. simpl in Hcols. rewrite Hcols. by split_and!.
Qed.

Lemma visit_hull_missing rb pos q r child g :
  geometry child = Some g →
  hullFound (float32Array (position g)) = false →
  ∃ e, visit convexHull rb pos q r child = inr e
       ∧ colliders e = colliders r
       ∧ offset (scratch e) = offset (scratch r).
Proof.
  intros Hg Hhull. unfold Colliders.visit. rewrite Hg. simpl. rewrite Hhull.
  by eexists.
Qed.

(** X15: in convex hull mode the call throws at the first mesh whose hull is
    not found; the colliders of the meshes before it are already created in
    the world, and none is created for that mesh or a later one. *)
Theorem convexHull_throws_at_first_missing
    object rb parent scratch0 before child after g :
  traverse object = before ++ child :: after →
  Forall (describable convexHull) before →
  geometry child = Some g →
  hullFound (float32Array (position g)) = false →
  ∃ e, createCollidersFromChildren object convexHull rb parent scratch0 = inr e
       ∧ length (colliders e)
         = length (filter (λ c, is_Some (geometry c)) before)
       ∧ Forall (ofThisCall convexHull rb) (colliders e).
Proof.
  intros Hsplit Hbefore Hg Hhull. unfold Colliders.createCollidersFromChildren.
  rewrite Hsplit, visitAll_app.
  apply describable_creatable_convexHull in Hbefore.
  match goal with
  | |- context [visitAll (Colliders.visit _ _ _ _ _ _ _ _ _ _ _ _ ?pos ?q) before ?r0] =>
    destruct (visitAll_creatable convexHull rb pos q before r0 Hbefore)
      as (r & new & Hrun & Hcols & Hlen & Hgood);
    rewrite Hrun; simpl visitAll;
    destruct (visit_hull_missing rb pos q r child g Hg Hhull)
      as (e & -> & Hcols' & _)
  end.
  exists e. rewrite Hcols', Hcols. simpl. by split_and!.
Qed.

Lemma visitAll_measured ty rb pos q nodes r1 r2 :
  ty = cuboid ∨ ty = ball ∨ ty = capsule → colliders r1 = colliders r2 →
  ∃ r1' r2',
    visitAll (visit ty rb pos q) nodes r1 = inl r1'
    ∧ visitAll (visit ty rb pos q) nodes r2 = inl r2'
    ∧ colliders r1' = colliders r2'.
Proof.
  intros Hty. revert r1 r2. induction nodes as [|child nodes IH];
    intros r1 r2 Hcols; simpl; [by exists r1, r2|].
  unfold Colliders.visit at 1 3. destruct (geometry child) as [g|]; [|by apply IH].
  destruct Hty as [-> | [-> | ->]]; simpl; apply IH; simpl; by rewrite Hcols.
Qed.

(** X16: for cuboids, balls and capsules the colliders returned do not depend
    on what earlier calls left in the scratch vectors at module level, and
    the call always returns. *)
Theorem measured_shapes_ignore_scratch object ty rb parent scratch1 scratch2 :
  ty = cuboid ∨ ty = ball ∨ ty = capsule →
  ∃ r1 r2,
    createCollidersFromChildren object ty rb parent scratch1 = inl r1
    ∧ createCollidersFromChildren object ty rb parent scratch2 = inl r2
    ∧ colliders r1 = colliders r2.
Proof.
  intros Hty. unfold Colliders.createCollidersFromChildren.
  by apply visitAll_measured.
Qed.

(** One child, for triangle meshes and convex hulls: the offset stays, and
    a collider that is created sits at the world position of the mesh
    relative to the rigid body plus that offset. *)
Lemma visit_unmeasured ty rb pos q r child :
  ty = trimesh ∨ ty = convexHull →
  match visit ty rb pos q r child with
  | inl r1 =>
    offset (scratch r1) = offset (scratch r)
    ∧ ((geometry child = None ∧ r1 = r)
       ∨ (is_Some (geometry child)
          ∧ ∃ c, colliders r1 = colliders r ++ [c]
                 ∧ translation (description c)
                   = translationFor pos (offset (scratch r)) child))
  | inr e =>
    is_Some (geometry child)
    ∧ offset (scratch e) = offset (scratch r)
    ∧ colliders e = colliders r
  end.
Proof.
  intros Hty. unfold Colliders.visit.
  destruct (geometry child) as [g|] eqn:Hg; [|by split; [|left]].
  destruct Hty as [-> | ->]; simpl.
  - destruct (trimeshAccepted _ _); simpl; [|done].
    split; [done|]. right. split; [done|]. by eexists.
  - destruct (hullFound _); simpl; [|done].
    split; [done|]. right. split; [done|]. by eexists.
Qed.

(** For triangle meshes and convex hulls: whether the traversal ends or
    throws, the offset is the one it started with, and the colliders created
    belong to the first meshes, all of them when it ends. *)
Lemma visitAll_unmeasured ty rb pos q nodes r :
  ty = trimesh ∨ ty = convexHull →
  let outcome := visitAll (visit ty rb pos q) nodes r in
  offset (scratch (finalRun outcome)) = offset (scratch r)
  ∧ ∃ new reached rest,
      colliders (finalRun outcome) = colliders r ++ new
      ∧ filter (λ child, is_Some (geometry child)) nodes = reached ++ rest
      ∧ Forall2 (λ child c,
                   translation (description c)
                   = translationFor pos (offset (scratch r)) child)
          reached new
      ∧ (∀ r', outcome = inl r' → rest = []).
Proof.
  intros Hty. revert r. induction nodes as [|child nodes IH]; intros r; simpl.
  { split; [done|]. exists [], [], []. rewrite app_nil_r. by split_and!. }
  rewrite filter_cons.
  pose proof (visit_unmeasured ty rb pos q r child Hty) as Hchild.
  destruct (visit ty rb pos q r child) as [r1|e].
  - destruct (IH r1) as (Hoff' & new & reached & rest & Hcols' & Hsplit & Hall & Hend).
    destruct Hchild as (Hoff & [[Hg ->] | [Hg (c & Hcols & Htrans)]]).
    + rewrite decide_False by (rewrite Hg; by intros [? ?]).
      split; [done|]. by exists new, reached, rest.
    + rewrite decide_True by done. split; [congruence|].
      exists (c :: new), (child :: reached), rest.
      rewrite Hcols', Hcols, <- app_assoc, Hsplit.
      split_and!; [done | done | | done].
      constructor; [done|]. by rewrite Hoff in Hall.
  - destruct Hchild as (Hg & Hoff & Hcols). rewrite decide_True by done. simpl.
    split; [done|].
    exists [], [], (child :: filter (λ c, is_Some (geometry c)) nodes).
    rewrite app_nil_r. split_and!; [done | done | constructor | done].
Qed.

(** X17: for triangle meshes and convex hulls the call never writes the
    scratch offset, whether it returns or throws: the offset is the same
    afterwards, and the translation of every collider created is the world
    position of its mesh relative to the rigid body plus the offset that an
    earlier call left; the colliders belong to the first meshes in traversal
    order, to all of them when the call returns. *)
Theorem unmeasured_shapes_keep_offset object ty rb parent scratch0 :
  ty = trimesh ∨ ty = convexHull →
  let outcome := createCollidersFromChildren object ty rb parent scratch0 in
  offset (scratch (finalRun outcome)) = offset scratch0
  ∧ ∃ reached rest,
      meshes object = reached ++ rest
      ∧ Forall2 (λ child c,
                   translation (description c)
                   = translationFor (rigidBodyPosition parent) (offset scratch0) child)
          reached (colliders (finalRun outcome))
      ∧ (∀ r, outcome = inl r → rest = []).
Proof.
  intros Hty. unfold Colliders.createCollidersFromChildren.
  match goal with |- context [visitAll (Colliders.visit _ _ _ _ _ _ _ _ _ _ _ _ ?pos ?q) ?nodes ?r0] =>
    destruct (visitAll_unmeasured ty rb pos q nodes r0 Hty)
      as (Hoff & new & reached & rest & Hcols & Hsplit & Hall & Hend) end.
  simpl in *. split; [exact Hoff|]. exists reached, rest.
  rewrite Hcols. by split_and!.
Qed.

End Facts.
End CollidersFacts.

(** ** Scenarios of the colliders *)

Module CollidersScenarios.
Import Colliders CollidersScene.

Lemma group_creatable_cuboid :
  Forall (creatable id id fourPoints oneTriangle cuboid) (traverse group).
Proof.
  apply Forall_forall. intros child _. split; intros g Hty; discriminate Hty.
Qed.

Lemma one_collider_per_mesh_witness :
  Forall (creatable id id fourPoints oneTriangle cuboid) (traverse group)
  ∧ ∃ r, create group cuboid (Some 1%positive) None freshScratch = inl r
         ∧ length (colliders r) = length (meshes group)
         ∧ Forall (ofThisCall cuboid (Some 1%positive)) (colliders r).
Proof.
  split; [exact group_creatable_cuboid|].
  exact (CollidersFacts.one_collider_per_mesh Z.add Z.sub Z.mul (λ n, n / 2)
           Z.max 0 0 Z.opp Z.add id id fourPoints oneTriangle
           group cuboid (Some 1%positive) None freshScratch
           group_creatable_cuboid).
Defined.

(** A triangle mesh with the indices of a triangle is created; the
    tetrahedron without an index is not. *)
Example trimesh_created_or_thrown :
  (∃ r, create triangleMesh trimesh None None freshScratch = inl r
        ∧ length (colliders r) = 1%nat)
  ∧ (∃ e, create group trimesh None None freshScratch = inr e
          ∧ colliders e = []).
Proof. split; eexists; split; reflexivity. Qed.

Lemma group_before_thin :
  Forall (describable id fourPoints convexHull) [group; solidMesh].
Proof.
  apply Forall_forall. intros child Hchild g _ Hg.
  apply elem_of_cons in Hchild as [-> | Hchild]; [discriminate Hg|].
  apply list_elem_of_singleton in Hchild as ->. by injection Hg as <-.
Qed.

Lemma convexHull_throws_at_first_missing_witness :
  traverse group = [group; solidMesh] ++ thinMesh :: []
  ∧ Forall (describable id fourPoints convexHull) [group; solidMesh]
  ∧ geometry thinMesh = Some segment
  ∧ fourPoints (id (position segment)) = false
  ∧ ∃ e, create group convexHull (Some 1%positive) None freshScratch = inr e
         ∧ length (colliders e)
           = length (filter (λ c, is_Some (geometry c)) [group; solidMesh])
         ∧ Forall (ofThisCall convexHull (Some 1%positive)) (colliders e).
Proof.
  split_and!; [reflexivity | exact group_before_thin | reflexivity | reflexivity |].
  exact (CollidersFacts.convexHull_throws_at_first_missing Z.add Z.sub Z.mul
           (λ n, n / 2) Z.max 0 0 Z.opp Z.add id id fourPoints oneTriangle
           group (Some 1%positive) None freshScratch
           [group; solidMesh] thinMesh [] segment
           eq_refl group_before_thin eq_refl eq_refl).
Defined.

Lemma measured_shapes_ignore_scratch_witness :
  (ball = cuboid ∨ ball = ball ∨ ball = capsule)
  ∧ ∃ r1 r2,
      create group ball None (Some group) freshScratch = inl r1
      ∧ create group ball None (Some group) usedScratch = inl r2
      ∧ colliders r1 = colliders r2.
Proof.
  split; [right; left; reflexivity|].
  exact (CollidersFacts.measured_shapes_ignore_scratch Z.add Z.sub Z.mul
           (λ n, n / 2) Z.max 0 0 Z.opp Z.add id id fourPoints oneTriangle
           group ball None (Some group) freshScratch usedScratch
           (or_intror (or_introl eq_refl))).
Defined.

(** After a call that measured a bounding box centred at (1, 2, 3): the
    indexed triangle of the next call is shifted by (1, 2, 3); the call on
    the group throws at the tetrahedron without an index, and the offset is
    still (1, 2, 3). *)
Lemma unmeasured_shapes_keep_offset_witness :
  (trimesh = trimesh ∨ trimesh = convexHull)
  ∧ (∃ r, create triangleMesh trimesh None None usedScratch = inl r
          ∧ translation <$> (description <$> colliders r) = [vec 11 2 3])
  ∧ offset (scratch (finalRun (create triangleMesh trimesh None None usedScratch)))
    = offset usedScratch
  ∧ (∃ e, create group trimesh None None usedScratch = inr e)
  ∧ offset (scratch (finalRun (create group trimesh None None usedScratch)))
    = offset usedScratch.
Proof.
  split_and!.
  - left; reflexivity.
  - eexists. split; reflexivity.
  - exact (proj1 (CollidersFacts.unmeasured_shapes_keep_offset Z.add Z.sub Z.mul
                    (λ n, n / 2) Z.max 0 0 Z.opp Z.add id id fourPoints oneTriangle
                    triangleMesh trimesh None None usedScratch
                    (or_introl eq_refl))).
  - eexists. reflexivity.
  - exact (proj1 (CollidersFacts.unmeasured_shapes_keep_offset Z.add Z.sub Z.mul
                    (λ n, n / 2) Z.max 0 0 Z.opp Z.add id id fourPoints oneTriangle
                    group trimesh None None usedScratch
                    (or_introl eq_refl))).
Defined.

End CollidersScenarios.
